(** * Beat Sync Tester: the audio structural-analysis core

    A shallow embedding of the analysis pipeline of the repository
    (EnergyAnalyzer.ts, DrumAnalyzer, SectionAnalyzer and the beat worker)
    together with the properties its specification states about it.

    Conventions of the embedding.
    - A JavaScript [number] is an exact rational ([Q]).  Rounding to binary64
      or to the 32 bits of a [Float32Array] cell, NaN and the infinities are
      outside the model.  Numeric results are compared with [==] ([Qeq]);
      values that the code merely copies are compared with [=].
    - Quantities the code obtains from [Math.floor], [Math.ceil], a [length]
      or a loop counter are integers ([Z]).
    - A [Float32Array] or a [number[]] is a [list Q].
    - [Math.sqrt], [Math.cos], [Math.sin] and [Math.PI] are the operations of
      a [MathLib] instance; the only facts used about them are collected in
      [MathLaws] and [SqrtPositive].
    - A [throw] is the [Thrown] outcome of a [Result]. *)

From Stdlib Require Import QArith Qround Qabs ZArith List Bool Lia Lqa Sorted.
From Stdlib Require String.
Import ListNotations.
Open Scope Q_scope.

(* ================================================================== *)
(** * Part I: the embedding *)
(* ================================================================== *)

(** ** JavaScript primitives *)

Module JS.

(** [a < b] and [a <= b] on numbers, as booleans. *)
Definition ltb (a b : Q) : bool := (Qnum a * QDen b <? Qnum b * QDen a)%Z.
Definition leb (a b : Q) : bool := Qle_bool a b.

(** An integer seen as a number. *)
Definition num (z : Z) : Q := inject_Z z.

(** The index values of [for (let i = lo; i < hi; i++)]. *)
Definition range (lo hi : Z) : list Z :=
  map (fun k => (lo + Z.of_nat k)%Z) (seq 0 (Z.to_nat (hi - lo))).

(** [for (let i = lo; i < hi; i++) s = body s i]. *)
Definition forRange {S : Type} (lo hi : Z) (body : S -> Z -> S) (s : S) : S :=
  fold_left body (range lo hi) s.

(** [for (let i = lo; i < hi; i += step)], for a positive [step]. *)
Definition rangeStep (lo hi step : Z) : list Z :=
  map (fun k => (lo + Z.of_nat k * step)%Z)
      (seq 0 (Z.to_nat ((hi - lo + step - 1) / step))).

(** [a[i]].  A read outside the bounds, [undefined] in JavaScript, is 0 in
    the model: this is [samples[i] ?? 0] in [calculateRMS], and the other
    loops of the analysed functions stay inside the bounds. *)
Definition get (a : list Q) (i : Z) : Q :=
  if (i <? 0)%Z then 0 else nth (Z.to_nat i) a 0.

(** [a[i] = v] on a typed array: a write outside the bounds is dropped. *)
Fixpoint setNat (a : list Q) (i : nat) (v : Q) : list Q :=
  match a, i with
  | [], _ => []
  | _ :: t, O => v :: t
  | h :: t, S j => h :: setNat t j v
  end.

Definition set (a : list Q) (i : Z) (v : Q) : list Q :=
  if (i <? 0)%Z then a else setNat a (Z.to_nat i) v.

(** [a.length] as an integer. *)
Definition len {A : Type} (a : list A) : Z := Z.of_nat (length a).

(** [new Float32Array(n)]: [n] zero cells. *)
Definition zeros (n : Z) : list Q := repeat 0 (Z.to_nat n).

(** [a[a.length - 1]], [undefined] on the empty array. *)
Definition lastOpt {A : Type} (a : list A) : option A :=
  match rev a with
  | [] => None
  | x :: _ => Some x
  end.

(** [a.sort((x, y) => x - y)]: a stable ascending sort. *)
Fixpoint insertSorted (x : Q) (l : list Q) : list Q :=
  match l with
  | [] => [x]
  | h :: t => if leb x h then x :: h :: t else h :: insertSorted x t
  end.

Definition sortNumbers (l : list Q) : list Q := fold_right insertSorted [] l.

(** Outcome of a computation that may [throw]. *)
Inductive Result (A : Type) : Type :=
| Ok (a : A)
| Thrown (message : Z).
Arguments Ok {A} a.
Arguments Thrown {A} message.

Definition bind {A B : Type} (r : Result A) (k : A -> Result B) : Result B :=
  match r with
  | Ok a => k a
  | Thrown m => Thrown m
  end.

(** [ToInt32], the conversion the bitwise operators apply to their operands. *)
Definition toInt32 (z : Z) : Z :=
  let m := (z mod 2 ^ 32)%Z in
  if (m <? 2 ^ 31)%Z then m else (m - 2 ^ 32)%Z.

Definition band (a b : Z) : Z := Z.land (toInt32 a) (toInt32 b).
Definition bor (a b : Z) : Z := Z.lor (toInt32 a) (toInt32 b).
Definition shl (a k : Z) : Z := toInt32 (Z.shiftl (toInt32 a) (k mod 32)).
Definition sar (a k : Z) : Z := Z.shiftr (toInt32 a) (k mod 32).

End JS.

(** The transcendental part of the [Math] object. *)
Class MathLib : Type := {
  Math_sqrt : Q -> Q;
  Math_cos : Q -> Q;
  Math_sin : Q -> Q;
  Math_PI : Q
}.

(** What the proofs use about [Math.sqrt]. *)
Class MathLaws (M : MathLib) : Prop := {
  sqrt_nonneg : forall x, 0 <= Math_sqrt x;
  sqrt_zero : forall x, x == 0 -> Math_sqrt x == 0
}.


(** An executable instance, to evaluate the functions on concrete inputs:
    the square root rounded down to a multiple of the denominator's unit;
    no property of the cosine, the sine and pi is ever used, so that simple
    stand-ins are taken for them. *)
Definition floorSqrt (x : Q) : Q :=
  Z.sqrt (Qnum x * QDen x) # Qden x.

Definition floorMath : MathLib := {|
  Math_sqrt := floorSqrt;
  Math_cos := fun a => 1 - Qabs a;
  Math_sin := fun a => a;
  Math_PI := 355 # 113
|}.

(** ** EnergyAnalyzer.ts *)

Module EnergyAnalyzer.
Import JS.

Section WithMath.
Context {M : MathLib}.

Definition OUTPUT_SAMPLE_RATE : Z := 10.

Definition calculateRMS (samples : list Q) (start end_ : Z) : Q :=
  let count := (end_ - start)%Z in
  if (count <=? 0)%Z then 0
  else
    let sumSquares :=
      forRange start end_
        (fun acc i => let sample := get samples i in acc + sample * sample) 0 in
    Math_sqrt (sumSquares / num count).

Definition smoothEnergyCurve (curve : list Q) (windowSize : Z) : list Q :=
  let halfWindow := (windowSize / 2)%Z in
  map (fun i =>
         let '(sum, count) :=
           forRange (Z.max 0 (i - halfWindow))
                    (Z.min (len curve) (i + halfWindow + 1))
                    (fun '(sum, count) j => (sum + get curve j, (count + 1)%Z))
                    (0, 0%Z) in
         sum / num count)
      (range 0 (len curve)).

Definition maxOf (smoothed : list Q) : Q :=
  fold_left (fun maxEnergy x => if ltb maxEnergy x then x else maxEnergy)
            smoothed 0.

Definition analyzeEnergy (audioData : list Q) (sampleRate : Q) : list Q :=
  let audioDuration := num (len audioData) / sampleRate in
  let outputLength := Qceiling (audioDuration * num OUTPUT_SAMPLE_RATE) in
  let windowSamples := Qfloor (sampleRate / num OUTPUT_SAMPLE_RATE) in
  let rawEnergy :=
    map (fun i =>
           let startSample := (i * windowSamples)%Z in
           let endSample := Z.min (startSample + windowSamples) (len audioData) in
           calculateRMS audioData startSample endSample)
        (range 0 outputLength) in
  let smoothed := smoothEnergyCurve rawEnergy 5 in
  let maxEnergy := maxOf smoothed in
  if ltb 0 maxEnergy
  then map (fun x => x / maxEnergy) smoothed
  else zeros (len smoothed).

End WithMath.

Definition getAverageEnergy (energyCurve : list Q) (startTime endTime : Q) : Q :=
  let startIndex := Qfloor (startTime * num OUTPUT_SAMPLE_RATE) in
  let endIndex :=
    Z.min (Qceiling (endTime * num OUTPUT_SAMPLE_RATE)) (len energyCurve) in
  if (startIndex >=? endIndex)%Z then 0
  else
    let sum := forRange startIndex endIndex
                        (fun acc i => acc + get energyCurve i) 0 in
    sum / num (endIndex - startIndex).

Record EnergyChange : Type := { time : Q; delta : Q }.

Definition detectEnergyChanges (energyCurve : list Q) (threshold : Q)
  : list EnergyChange :=
  let lookWindow := OUTPUT_SAMPLE_RATE in
  forRange lookWindow (len energyCurve - lookWindow)
    (fun changes i =>
       let '(beforeSum, afterSum) :=
         forRange 0 lookWindow
           (fun '(b, a) j =>
              (b + get energyCurve (i - lookWindow + j),
               a + get energyCurve (i + j)))
           (0, 0) in
       let beforeAvg := beforeSum / num lookWindow in
       let afterAvg := afterSum / num lookWindow in
       let delta := afterAvg - beforeAvg in
       if leb threshold (Qabs delta) then
         let time := num i / num OUTPUT_SAMPLE_RATE in
         match lastOpt changes with
         | None => changes ++ [{| time := time; delta := delta |}]
         | Some lastChange =>
             if leb 1 (time - lastChange.(EnergyAnalyzer.time))
             then changes ++ [{| time := time; delta := delta |}]
             else changes
         end
       else changes)
    [].

End EnergyAnalyzer.

(** ** SectionAnalyzer *)

Module SectionAnalyzer.
Import JS.

Inductive SectionType : Type :=
| intro | verse | chorus | drop | breakdown | outro | unknown.

Definition SectionType_eqb (a b : SectionType) : bool :=
  match a, b with
  | intro, intro | verse, verse | chorus, chorus | drop, drop
  | breakdown, breakdown | outro, outro | unknown, unknown => true
  | _, _ => false
  end.

Record MusicSection : Type := {
  type : SectionType;
  startTime : Q;
  endTime : Q;
  energy : Q
}.

Definition MIN_SECTION_DURATION : Q := 4.0.
Definition ENERGY_HIGH : Q := 0.7.
Definition ENERGY_MEDIUM : Q := 0.4.
Definition EDGE_SECTION_THRESHOLD : Q := 15.

Definition classifySection
  (energy startTime endTime totalDuration energyChange : Q) : SectionType :=
  if ltb startTime EDGE_SECTION_THRESHOLD && ltb energy ENERGY_HIGH then intro
  else if ltb (totalDuration - EDGE_SECTION_THRESHOLD) endTime
          && ltb energy ENERGY_HIGH then outro
  else if leb ENERGY_HIGH energy then
    (if ltb 0.25 energyChange then drop else chorus)
  else if leb ENERGY_MEDIUM energy then verse
  else if ltb energyChange (-0.2) then breakdown
  else unknown.

(** The loop of [mergeSections]: [current] is the section being extended,
    [merged] the sections already pushed. *)
Fixpoint mergeLoop (rest : list MusicSection) (current : MusicSection)
  (merged : list MusicSection) : list MusicSection :=
  match rest with
  | [] => merged ++ [current]
  | next :: rest' =>
      if SectionType_eqb next.(type) current.(type)
      then mergeLoop rest'
             {| type := current.(type);
                startTime := current.(startTime);
                endTime := next.(endTime);
                energy := (current.(energy) + next.(energy)) / 2 |}
             merged
      else mergeLoop rest' next (merged ++ [current])
  end.

Definition mergeSections (sections : list MusicSection) : list MusicSection :=
  match sections with
  | [] | [_] => sections
  | first :: rest => mergeLoop rest first []
  end.

(** The loop of [snapToNearestBar], with its early [break]. *)
Fixpoint snapLoop (time : Q) (bars : list Q) (nearestBar minDiff : Q) : Q :=
  match bars with
  | [] => nearestBar
  | barTime :: bars' =>
      let diff := Qabs (time - barTime) in
      let nearestBar' := if ltb diff minDiff then barTime else nearestBar in
      let minDiff' := if ltb diff minDiff then diff else minDiff in
      if ltb (time + 2) barTime then nearestBar'
      else snapLoop time bars' nearestBar' minDiff'
  end.

Definition snapToNearestBar (time : Q) (barTimes : list Q) : Q :=
  match barTimes with
  | [] => time
  | bar0 :: _ => snapLoop time barTimes bar0 (Qabs (time - bar0))
  end.

(** [boundaries[boundaries.length - 1]]; the list is never empty. *)
Definition lastBoundary (boundaries : list Q) : Q := last boundaries 0.

(** Boundaries after the energy-change loop. *)
Definition changeBoundaries (changes : list EnergyAnalyzer.EnergyChange)
  (barTimes : list Q) : list Q :=
  fold_left
    (fun boundaries change =>
       let snappedTime :=
         snapToNearestBar change.(EnergyAnalyzer.time) barTimes in
       if leb MIN_SECTION_DURATION (snappedTime - lastBoundary boundaries)
       then boundaries ++ [snappedTime]
       else boundaries)
    changes [0].

(** "Ensure we end at the track duration". *)
Definition closeBoundaries (boundaries : list Q) (audioDuration : Q) : list Q :=
  if leb MIN_SECTION_DURATION (audioDuration - lastBoundary boundaries)
  then boundaries ++ [audioDuration]
  else if (1 <? len boundaries)%Z
  then removelast boundaries ++ [audioDuration]
  else boundaries ++ [audioDuration].

(** The fallback: a boundary every 8 bars when only start and end exist. *)
Definition barBoundaries (boundaries : list Q) (barTimes : list Q) : list Q :=
  if (len boundaries =? 2)%Z && (0 <? len barTimes)%Z then
    let barsPerSection := 8%Z in
    sortNumbers
      (fold_left
         (fun bs i =>
            let barTime := get barTimes i in
            if ltb (get bs 0 + MIN_SECTION_DURATION) barTime
               && ltb barTime (get bs 1 - MIN_SECTION_DURATION)
            then bs ++ [barTime] else bs)
         (rangeStep barsPerSection (len barTimes) barsPerSection)
         boundaries)
  else boundaries.

Definition sectionAt (energyCurve : list Q) (boundaries : list Q)
  (audioDuration : Q) (i : Z) : MusicSection :=
  let startTime := get boundaries i in
  let endTime := get boundaries (i + 1) in
  let energy := EnergyAnalyzer.getAverageEnergy energyCurve startTime endTime in
  let prevEnergy :=
    if (0 <? i)%Z
    then EnergyAnalyzer.getAverageEnergy energyCurve
           (get boundaries (i - 1)) startTime
    else energy in
  let energyChange := energy - prevEnergy in
  {| type := classifySection energy startTime endTime audioDuration energyChange;
     startTime := startTime;
     endTime := endTime;
     energy := energy |}.

Definition analyzeSections (energyCurve : list Q) (barTimes : list Q)
  (audioDuration : Q) : list MusicSection :=
  if (len energyCurve =? 0)%Z then
    [{| type := unknown; startTime := 0; endTime := audioDuration;
        energy := 0.5 |}]
  else
    let energyChanges := EnergyAnalyzer.detectEnergyChanges energyCurve 0.15 in
    let boundaries :=
      barBoundaries
        (closeBoundaries (changeBoundaries energyChanges barTimes) audioDuration)
        barTimes in
    let sections :=
      map (sectionAt energyCurve boundaries audioDuration)
          (range 0 (len boundaries - 1)) in
    mergeSections sections.

Definition detectPhraseBoundaries (barTimes : list Q)
  (sections : list MusicSection) : list Q :=
  let sectionStarts :=
    fold_left
      (fun phrases section =>
         if existsb (Qeq_bool section.(startTime)) phrases then phrases
         else phrases ++ [section.(startTime)])
      sections [] in
  let BARS_PER_PHRASE := 4%Z in
  let phrases :=
    fold_left
      (fun phrases i =>
         let barTime := get barTimes i in
         let minDistance := 2.0 in
         let tooClose :=
           existsb (fun p => ltb (Qabs (p - barTime)) minDistance) phrases in
         if negb tooClose then phrases ++ [barTime] else phrases)
      (rangeStep 0 (len barTimes) BARS_PER_PHRASE)
      sectionStarts in
  sortNumbers phrases.

End SectionAnalyzer.

(** ** DrumAnalyzer *)

Module DrumAnalyzer.
Import JS.

Record DrumPattern : Type := {
  kickTimes : list Q;
  snareTimes : list Q;
  hihatTimes : list Q;
  patternLength : Q
}.

Record Band : Type := { low : Q; high : Q }.

Definition FREQUENCY_BANDS_kick : Band := {| low := 20; high := 200 |}.
Definition FREQUENCY_BANDS_snare : Band := {| low := 200; high := 2000 |}.
Definition FREQUENCY_BANDS_hihat : Band := {| low := 5000; high := 15000 |}.

Definition FFT_SIZE : Z := 2048.
Definition HOP_SIZE : Z := 512.

Definition ONSET_THRESHOLDS_kick : Q := 1.8.
Definition ONSET_THRESHOLDS_snare : Q := 2.0.
Definition ONSET_THRESHOLDS_hihat : Q := 1.6.

Definition MIN_HIT_INTERVAL_kick : Q := 0.15.
Definition MIN_HIT_INTERVAL_snare : Q := 0.12.
Definition MIN_HIT_INTERVAL_hihat : Q := 0.05.

(** The message of the only [throw] of the module. *)
Definition FFT_REQUIRES_POWER_OF_2 (N : Z) : Z := N.

(** [reverseBits]: [bits] rounds of [result = (result << 1) | (x & 1); x >>= 1]. *)
Fixpoint reverseLoop (bits : nat) (x result : Z) : Z :=
  match bits with
  | O => result
  | S b => reverseLoop b (sar x 1) (bor (shl result 1) (band x 1))
  end.

Definition reverseBits (x : Z) (bits : Z) : Z :=
  reverseLoop (Z.to_nat bits) x 0.

(** The two arrays of the in-place transform. *)
Record Complex : Type := { real : list Q; imag : list Q }.

Definition swapCells (a : list Q) (i j : Z) : list Q :=
  let temp := get a i in
  set (set a i (get a j)) j temp.

Definition bitReversal (N bits : Z) (c : Complex) : Complex :=
  forRange 0 N
    (fun c i =>
       let reversed := reverseBits i bits in
       if (i <? reversed)%Z
       then {| real := swapCells c.(real) i reversed;
               imag := swapCells c.(imag) i reversed |}
       else c)
    c.

Section WithMath.
Context {M : MathLib}.

Definition createHammingWindow (size : Z) : list Q :=
  map (fun i => 0.54 - 0.46 * Math_cos (2 * Math_PI * num i / num (size - 1)))
      (range 0 size).

Definition applyWindow (samples window : list Q) : list Q :=
  map (fun i => get samples i * get window i) (range 0 (len samples)).

Definition butterfly (halfSize : Z) (angleStep : Q) (i : Z) (c : Complex) (j : Z)
  : Complex :=
  let angle := angleStep * num j in
  let cos := Math_cos angle in
  let sin := Math_sin angle in
  let evenIdx := (i + j)%Z in
  let oddIdx := (i + j + halfSize)%Z in
  let tReal := get c.(real) oddIdx * cos - get c.(imag) oddIdx * sin in
  let tImag := get c.(real) oddIdx * sin + get c.(imag) oddIdx * cos in
  let real1 := set c.(real) oddIdx (get c.(real) evenIdx - tReal) in
  let imag1 := set c.(imag) oddIdx (get c.(imag) evenIdx - tImag) in
  {| real := set real1 evenIdx (get real1 evenIdx + tReal);
     imag := set imag1 evenIdx (get imag1 evenIdx + tImag) |}.

(** One pass of the outer loop, for one value of [size]. *)
Definition fftPass (N : Z) (c : Complex) (size : Z) : Complex :=
  let halfSize := (size / 2)%Z in
  let angleStep := -2 * Math_PI / num size in
  fold_left
    (fun c i => forRange 0 halfSize (butterfly halfSize angleStep i) c)
    (rangeStep 0 N size) c.

(** The values of [size] in [for (size = 2; size <= N; size *= 2)]:
    the powers of two from 2 up to [N]. *)
Definition passSizes (N : Z) : list Z :=
  map (fun k => (2 ^ (Z.of_nat k + 1))%Z) (seq 0 (Z.to_nat (Z.log2 N))).

Definition computeMagnitudeSpectrum (samples : list Q) : Result (list Q) :=
  let N := len samples in
  if negb (band N (N - 1) =? 0)%Z then Thrown (FFT_REQUIRES_POWER_OF_2 N)
  else
    let c0 := {| real := samples; imag := zeros N |} in
    (* [Math.log2(N)]; not used when [N] is 0, the loop below being empty *)
    let bits := Z.log2 N in
    let c1 := bitReversal N bits c0 in
    let c2 := fold_left (fftPass N) (passSizes N) c1 in
    (* [new Float32Array(N / 2)] truncates its argument; [k < N / 2]
       compares with the exact half *)
    Ok (forRange 0 (Qceiling (num N / 2))
          (fun spectrum k =>
             set spectrum k
               (Math_sqrt (get c2.(real) k * get c2.(real) k
                           + get c2.(imag) k * get c2.(imag) k)))
          (zeros (N / 2))).

Definition getBandEnergy (spectrum : list Q) (sampleRate lowHz highHz : Q) : Q :=
  let binResolution := sampleRate / (num (len spectrum) * 2) in
  let lowBin := Qfloor (lowHz / binResolution) in
  let highBin := Z.min (Qceiling (highHz / binResolution)) (len spectrum - 1) in
  let energy :=
    forRange lowBin (highBin + 1)
      (fun energy i => energy + get spectrum i * get spectrum i) 0 in
  Math_sqrt (energy / num (highBin - lowBin + 1)).

End WithMath.

Definition detectOnsets (energy frameTimes : list Q) (threshold minInterval : Q)
  : list Q :=
  let windowSize := 10%Z in
  forRange windowSize (len energy - 1)
    (fun onsets i =>
       let localMean :=
         forRange (i - windowSize) i (fun m j => m + get energy j) 0
         / num windowSize in
       if ltb (threshold * localMean) (get energy i)
          && ltb (get energy (i - 1)) (get energy i)
       then
         let time := get frameTimes i in
         match lastOpt onsets with
         | None => onsets ++ [time]
         | Some lastOnset =>
             if leb minInterval (time - lastOnset)
             then onsets ++ [time] else onsets
         end
       else onsets)
    [].

(** The four arrays filled by the frame loop. *)
Record FrameArrays : Type := {
  kickEnergy : list Q;
  snareEnergy : list Q;
  hihatEnergy : list Q;
  frameTimes : list Q
}.

(** What a run of [analyzeDrums] does: its outcome, and how many times it
    called [computeMagnitudeSpectrum]. *)
Record Run : Type := {
  outcome : Result DrumPattern;
  spectraComputed : nat
}.

Section WithMath.
Context {M : MathLib}.

(** The frame loop; [ffts] counts the calls of [computeMagnitudeSpectrum].
    A [throw] of the transform leaves the loop. *)
Fixpoint frameLoop (audioData : list Q) (sampleRate : Q) (window : list Q)
  (frames : list Z) (arrays : FrameArrays) (ffts : nat)
  : Result FrameArrays * nat :=
  match frames with
  | [] => (Ok arrays, ffts)
  | frame :: frames' =>
      let startSample := (frame * HOP_SIZE)%Z in
      let endSample := (startSample + FFT_SIZE)%Z in
      let frameData :=
        firstn (Z.to_nat (endSample - startSample))
               (skipn (Z.to_nat startSample) audioData) in
      let windowed := applyWindow frameData window in
      match computeMagnitudeSpectrum windowed with
      | Thrown m => (Thrown m, S ffts)
      | Ok spectrum =>
          let bandOf b := getBandEnergy spectrum sampleRate b.(low) b.(high) in
          frameLoop audioData sampleRate window frames'
            {| kickEnergy := set arrays.(kickEnergy) frame
                               (bandOf FREQUENCY_BANDS_kick);
               snareEnergy := set arrays.(snareEnergy) frame
                                (bandOf FREQUENCY_BANDS_snare);
               hihatEnergy := set arrays.(hihatEnergy) frame
                                (bandOf FREQUENCY_BANDS_hihat);
               frameTimes := set arrays.(frameTimes) frame
                               (num (startSample + FFT_SIZE / 2) / sampleRate) |}
            (S ffts)
      end
  end.

Definition estimatePatternLength (beatTimes : list Q) : Q :=
  if (2 <=? len beatTimes)%Z then
    let beatInterval :=
      (get beatTimes (len beatTimes - 1) - get beatTimes 0)
      / num (len beatTimes - 1) in
    beatInterval * 16
  else 0.

Definition analyzeDrums (audioData : list Q) (sampleRate : Q)
  (beatTimes : list Q) : Run :=
  let numFrames := ((len audioData - FFT_SIZE) / HOP_SIZE)%Z in
  if (numFrames <=? 0)%Z then
    {| outcome := Ok {| kickTimes := []; snareTimes := []; hihatTimes := [];
                        patternLength := 0 |};
       spectraComputed := 0 |}
  else
    let window := createHammingWindow FFT_SIZE in
    let '(arrays, ffts) :=
      frameLoop audioData sampleRate window (range 0 numFrames)
        {| kickEnergy := zeros numFrames; snareEnergy := zeros numFrames;
           hihatEnergy := zeros numFrames; frameTimes := zeros numFrames |}
        0%nat in
    {| outcome :=
         bind arrays (fun a =>
           Ok {| kickTimes := detectOnsets a.(kickEnergy) a.(frameTimes)
                                ONSET_THRESHOLDS_kick MIN_HIT_INTERVAL_kick;
                 snareTimes := detectOnsets a.(snareEnergy) a.(frameTimes)
                                 ONSET_THRESHOLDS_snare MIN_HIT_INTERVAL_snare;
                 hihatTimes := detectOnsets a.(hihatEnergy) a.(frameTimes)
                                 ONSET_THRESHOLDS_hihat MIN_HIT_INTERVAL_hihat;
                 patternLength := estimatePatternLength beatTimes |});
       spectraComputed := ffts |}.

End WithMath.

End DrumAnalyzer.

(** ** The beat worker *)

Module BeatWorker.
Import JS.

(** The window of samples around one beat: [start] and [end] of
    [calculateBeatStrengths]. *)
Definition beatWindow (audioLength : Z) (beatTime sampleRate : Q) : Z * Z :=
  let frameSize := 2048%Z in
  let halfFrame := (frameSize / 2)%Z in
  let sampleIndex := Qfloor (beatTime * sampleRate) in
  let start := Z.max 0 (sampleIndex - halfFrame) in
  let end_ := Z.min audioLength (sampleIndex + halfFrame) in
  (start, end_).

(** The divisor [end - start] of the RMS of one beat. *)
Definition rmsDivisor (audioLength : Z) (beatTime sampleRate : Q) : Z :=
  let '(start, end_) := beatWindow audioLength beatTime sampleRate in
  (end_ - start)%Z.

Section WithMath.
Context {M : MathLib}.

(** [Math.max(...xs)] on a non-empty array. *)
Definition maxSpread (first : Q) (others : list Q) : Q :=
  fold_left (fun m x => if ltb m x then x else m) others first.

(** In the model a division by [0] yields [0]; the quotient of the code is
    then NaN.  [rmsDivisor] is the divisor in question. *)
Definition calculateBeatStrengths (audioData : list Q) (beatTimes : list Q)
  (sampleRate : Q) : list Q :=
  let rawStrengths :=
    map (fun beatTime =>
           let '(start, end_) := beatWindow (len audioData) beatTime sampleRate in
           let sumSquares :=
             forRange start end_
               (fun acc i => acc + get audioData i * get audioData i) 0 in
           Math_sqrt (sumSquares / num (end_ - start)))
        beatTimes in
  match rawStrengths with
  | [] => []
  | first :: others =>
      let maxStrength := maxSpread first others in
      if Qeq_bool maxStrength 0 then map (fun _ => 0) rawStrengths
      else map (fun s => s / maxStrength) rawStrengths
  end.

End WithMath.

(** The tempo computed by [analyzeBeatsEnhanced] from the beat times. *)
Definition tempoOf (beatTimes : list Q) : Q :=
  if (2 <=? len beatTimes)%Z then
    let intervals :=
      map (fun i => get beatTimes i - get beatTimes (i - 1))
          (range 1 (len beatTimes)) in
    let avgInterval := fold_left Qplus intervals 0 / num (len intervals) in
    60 / avgInterval
  else 120.

(** The bar times computed by [analyzeBeatsEnhanced]: every 4 beats. *)
Definition barTimesOf (beatTimes : list Q) : list Q :=
  map (get beatTimes) (rangeStep 0 (len beatTimes) 4).

(** The beat data of the result of [analyzeBeatsEnhanced], for the beat
    times supplied by the tracker. *)
Record BasicBeatAnalysisResult : Type := {
  beatTimes : list Q;
  barTimes : list Q;
  tempo : Q;
  beatCount : Z;
  barCount : Z
}.

Definition analyzeBeatsEnhanced (trackedBeats : list Q) : BasicBeatAnalysisResult :=
  let tempo := tempoOf trackedBeats in
  let barTimes := barTimesOf trackedBeats in
  {| beatTimes := trackedBeats;
     barTimes := barTimes;
     tempo := tempo;
     beatCount := len trackedBeats;
     barCount := len barTimes |}.

Record Downbeats : Type := {
  downbeatIndices : list Z;
  downbeatTimes : list Q
}.

Section WithMath.
Context {M : MathLib}.

Definition detectDownbeats (beatTimes beatStrengths : list Q) : Downbeats :=
  if (len beatStrengths =? 0)%Z then
    {| downbeatIndices := []; downbeatTimes := [] |}
  else
    let mean := fold_left Qplus beatStrengths 0 / num (len beatStrengths) in
    let variance :=
      fold_left (fun sum s => sum + (s - mean) ^ 2) beatStrengths 0
      / num (len beatStrengths) in
    let std := Math_sqrt variance in
    let threshold := mean + 0.3 * std in
    let downbeatIndices :=
      filter (fun i =>
                let strength := get beatStrengths i in
                let isStrong := ltb threshold strength in
                let isBarPosition := (i mod 4 =? 0)%Z in
                isStrong || isBarPosition)
             (range 0 (len beatStrengths)) in
    let downbeatTimes :=
      map (get beatTimes)
          (filter (fun i => (i <? len beatTimes)%Z) downbeatIndices) in
    {| downbeatIndices := downbeatIndices; downbeatTimes := downbeatTimes |}.

End WithMath.

End BeatWorker.

(** ** BeatDetectionService.ts: the helpers that consume an analysis *)

Module BeatDetectionService.
Import JS.

(** [xs.reduce((best, x) => |x - time| < |best - time| ? x : best)] on a
    non-empty array: the fold starts from the first element. *)
Definition nearestTo (time : Q) (first : Q) (others : list Q) : Q :=
  fold_left
    (fun nearest beat =>
       if ltb (Qabs (beat - time)) (Qabs (nearest - time)) then beat else nearest)
    others first.

Definition findNearestBeat (time : Q) (beatTimes : list Q) : Q :=
  match beatTimes with
  | [] => time
  | first :: others => nearestTo time first others
  end.

(** [null] is [None]. *)
Definition findNearestSnare (time : Q) (drumPattern : DrumAnalyzer.DrumPattern)
  (maxDistance : Q) : option Q :=
  match drumPattern.(DrumAnalyzer.snareTimes) with
  | [] => None
  | first :: others =>
      let nearest := nearestTo time first others in
      if leb (Qabs (nearest - time)) maxDistance then Some nearest else None
  end.

Definition getSectionAtTime (time : Q)
  (sections : list SectionAnalyzer.MusicSection)
  : option SectionAnalyzer.MusicSection :=
  find (fun s => leb s.(SectionAnalyzer.startTime) time
                 && ltb time s.(SectionAnalyzer.endTime))
       sections.

Definition calculateUniformClipDuration (tempo : Q) (targetBars : Q) : Q :=
  let barDuration := (60 / tempo) * 4 in
  barDuration * targetBars.

(** [toMono] on the channels of an audio buffer: channel 0 alone when it
    is the only one, the mean of channels 0 and 1 otherwise. *)
Definition toMono (channels : list (list Q)) : list Q :=
  let left := nth 0 channels [] in
  if (len channels =? 1)%Z then left
  else
    let right := nth 1 channels [] in
    map (fun i => (get left i + get right i) / 2) (range 0 (len left)).

End BeatDetectionService.

(** ** SectionTimeline.tsx: the geometry of the section bars *)

Module SectionTimeline.

Definition leftPercent (section : SectionAnalyzer.MusicSection)
  (totalDuration : Q) : Q :=
  (section.(SectionAnalyzer.startTime) / totalDuration) * 100.

Definition widthPercent (section : SectionAnalyzer.MusicSection)
  (totalDuration : Q) : Q :=
  ((section.(SectionAnalyzer.endTime) - section.(SectionAnalyzer.startTime))
   / totalDuration) * 100.

End SectionTimeline.

(** ** useBeatCorrections.ts: the updates of the list of corrections *)

Module BeatCorrections.
Import JS.

Record BeatCorrection : Type := { time : Q; id : String.string }.

(** [cs.sort((a, b) => a.time - b.time)]: a stable sort by time. *)
Fixpoint insertByTime (x : BeatCorrection) (l : list BeatCorrection)
  : list BeatCorrection :=
  match l with
  | [] => [x]
  | h :: t =>
      if leb x.(time) h.(time) then x :: h :: t else h :: insertByTime x t
  end.

Definition sortByTime (l : list BeatCorrection) : list BeatCorrection :=
  fold_right insertByTime [] l.

(** The state update of [addCorrection]; [newId] is the identifier that
    [generateId] draws. *)
Definition addCorrection (newId : String.string) (time : Q)
  (prev : list BeatCorrection) : list BeatCorrection :=
  let isDuplicate :=
    existsb (fun c => ltb (Qabs (c.(BeatCorrections.time) - time)) 0.05) prev in
  if isDuplicate then prev
  else sortByTime (prev ++ [{| time := time; id := newId |}]).

Definition findCorrectionNear (time : Q) (tolerance : Q)
  (corrections : list BeatCorrection) : option BeatCorrection :=
  find (fun c => leb (Qabs (c.(BeatCorrections.time) - time)) tolerance)
       corrections.

End BeatCorrections.

(** ** Vocabulary of the specification *)

(** Corrections in ascending order of time. *)
Definition SortedByTime (l : list BeatCorrections.BeatCorrection) : Prop :=
  Sorted (fun a b => BeatCorrections.time a <= BeatCorrections.time b) l.

(** Two corrections at least 50 ms apart. *)
Definition Apart (a b : BeatCorrections.BeatCorrection) : Prop :=
  0.05 <= Qabs (BeatCorrections.time a - BeatCorrections.time b).

(** No two corrections of the list are less than 50 ms apart. *)
Definition Separated (l : list BeatCorrections.BeatCorrection) : Prop :=
  ForallOrdPairs Apart l.


(** [Path a sections e]: the sections are laid end to end from time [a] to
    time [e], each one ending where the next one starts. *)
Inductive Path : Q -> list SectionAnalyzer.MusicSection -> Q -> Prop :=
| Path_nil (a : Q) : Path a [] a
| Path_cons (s : SectionAnalyzer.MusicSection) (l : list SectionAnalyzer.MusicSection)
    (e : Q) :
    Path (SectionAnalyzer.endTime s) l e ->
    Path (SectionAnalyzer.startTime s) (s :: l) e.

(** No two adjacent sections have the same type. *)
Fixpoint Alternating (l : list SectionAnalyzer.MusicSection) : Prop :=
  match l with
  | [] => True
  | s :: t =>
      match t with
      | [] => True
      | s' :: _ => SectionAnalyzer.type s <> SectionAnalyzer.type s'
      end /\ Alternating t
  end.

(** The four invariants of a section list for a track of length [duration]. *)
Definition SectionInvariants (duration : Q)
  (sections : list SectionAnalyzer.MusicSection) : Prop :=
  (exists first rest,
      sections = first :: rest /\ SectionAnalyzer.startTime first = 0) /\
  (forall i a b,
      nth_error sections i = Some a -> nth_error sections (S i) = Some b ->
      SectionAnalyzer.endTime a = SectionAnalyzer.startTime b) /\
  (exists init final,
      sections = init ++ [final] /\ SectionAnalyzer.endTime final = duration) /\
  (forall i a b,
      nth_error sections i = Some a -> nth_error sections (S i) = Some b ->
      SectionAnalyzer.type a <> SectionAnalyzer.type b).

(** Timestamps strictly increasing, consecutive ones at least [gap] apart. *)
Fixpoint Spaced (gap : Q) (times : list Q) : Prop :=
  match times with
  | [] => True
  | x :: t =>
      match t with
      | [] => True
      | y :: _ => x < y /\ gap <= y - x
      end /\ Spaced gap t
  end.

(** A frame length that is a power of two. *)
Definition PowerOfTwo (N : Z) : Prop := exists k : Z, (0 <= k)%Z /\ N = (2 ^ k)%Z.

(** The mean inter-beat interval in the words of the specification: the
    mean of the differences of consecutive beat times. *)
Fixpoint beatIntervals (beats : list Q) : list Q :=
  match beats with
  | [] => []
  | a :: t =>
      match t with
      | [] => []
      | b :: _ => (b - a) :: beatIntervals t
      end
  end.

Definition meanBeatInterval (beats : list Q) : Q :=
  fold_right Qplus 0 (beatIntervals beats)
  / inject_Z (Z.of_nat (length (beatIntervals beats))).

(** A time at which one of the sections starts. *)
Definition isSectionStart (sections : list SectionAnalyzer.MusicSection)
  (p : Q) : Prop :=
  exists s, In s sections /\ p = SectionAnalyzer.startTime s.

(** A waveform, or an envelope, all of whose values are 0. *)
Definition Silent (samples : list Q) : Prop := Forall (fun x => x == 0) samples.


(** Both arrays of a transform in progress are all 0. *)
Definition SilentComplex (c : DrumAnalyzer.Complex) : Prop :=
  Silent c.(DrumAnalyzer.real) /\ Silent c.(DrumAnalyzer.imag).

(* ================================================================== *)
(** * Part II: properties *)
(* ================================================================== *)

(** ** Numbers, ranges and loops *)

Section JSFacts.
Import JS.

Lemma ltb_lt (a b : Q) : ltb a b = true <-> a < b.
Proof. unfold ltb, Qlt. apply Z.ltb_lt. Qed.

Lemma ltb_ge (a b : Q) : ltb a b = false <-> b <= a.
Proof. unfold ltb, Qle. apply Z.ltb_ge. Qed.

Lemma leb_le (a b : Q) : leb a b = true <-> a <= b.
Proof. apply Qle_bool_iff. Qed.

Lemma leb_gt (a b : Q) : leb a b = false <-> b < a.
Proof.
  split; intro H.
  - apply Qnot_le_lt. intro Hle. apply leb_le in Hle. congruence.
  - destruct (leb a b) eqn:E; [|reflexivity].
    apply leb_le in E. exfalso. apply (Qlt_not_le _ _ H E).
Qed.

Lemma range_length (lo hi : Z) : length (range lo hi) = Z.to_nat (hi - lo).
Proof. unfold range. now rewrite length_map, length_seq. Qed.

Lemma range_empty (lo hi : Z) : (hi <= lo)%Z -> range lo hi = [].
Proof.
  intro H. unfold range.
  replace (Z.to_nat (hi - lo)) with 0%nat by lia. reflexivity.
Qed.

Lemma in_range (lo hi i : Z) : In i (range lo hi) <-> (lo <= i < hi)%Z.
Proof.
  unfold range. rewrite in_map_iff. split.
  - intros (k & <- & Hk). apply in_seq in Hk. lia.
  - intros H. exists (Z.to_nat (i - lo)). split; [lia|].
    apply in_seq. lia.
Qed.

Lemma forRange_empty {S : Type} (lo hi : Z) (body : S -> Z -> S) (s : S) :
  (hi <= lo)%Z -> forRange lo hi body s = s.
Proof. intro H. unfold forRange. now rewrite range_empty. Qed.

Lemma setNat_length (a : list Q) (i : nat) (v : Q) :
  length (setNat a i v) = length a.
Proof.
  revert i. induction a as [|h t IH]; intros [|j]; simpl; auto.
Qed.

Lemma set_length (a : list Q) (i : Z) (v : Q) : length (set a i v) = length a.
Proof. unfold set. destruct (i <? 0)%Z; auto using setNat_length. Qed.

Lemma zeros_length (n : Z) : length (zeros n) = Z.to_nat n.
Proof. apply repeat_length. Qed.

Lemma lastOpt_app {A : Type} (l : list A) (x : A) : lastOpt (l ++ [x]) = Some x.
Proof. unfold lastOpt. now rewrite rev_app_distr. Qed.

Lemma lastOpt_nil {A : Type} (l : list A) : lastOpt l = None -> l = [].
Proof.
  unfold lastOpt. intro H. rewrite <- (rev_involutive l).
  destruct (rev l); [reflexivity|discriminate].
Qed.

End JSFacts.

(** ** Energy analyzer: range averages and change detection *)

Section EnergyFacts.
Import JS EnergyAnalyzer.

(** C10.  An envelope of at most 20 samples (2 seconds at 10 Hz) yields no
    energy-change event, whatever the threshold: the scan starts at index 10
    and stops before index [length - 10]. *)
Theorem detectEnergyChanges_short (energyCurve : list Q) (threshold : Q) :
  (length energyCurve <= 20)%nat ->
  detectEnergyChanges energyCurve threshold = [].
Proof.
  intro H. unfold detectEnergyChanges.
  apply forRange_empty. unfold len, OUTPUT_SAMPLE_RATE. lia.
Qed.

Lemma detectEnergyChanges_short_witness :
  detectEnergyChanges [0.1; 0.9; 0.9; 0.1] 0.2 = [].
Proof. apply detectEnergyChanges_short. simpl. lia. Defined.

Lemma Qceiling_Z (k : Z) : Qceiling (inject_Z k) = k.
Proof. unfold Qceiling. rewrite <- inject_Z_opp, Qfloor_Z. lia. Qed.

(** Off the integers the ceiling is one above the floor. *)
Lemma Qceiling_floor_succ (x : Q) :
  ~ (exists k : Z, x == inject_Z k) -> Qceiling x = (Qfloor x + 1)%Z.
Proof.
  intro Hx.
  pose proof (Qfloor_le x) as Hfl. pose proof (Qlt_floor x) as Hfu.
  pose proof (Qle_ceiling x) as Hcu. pose proof (Qceiling_lt x) as Hcl.
  assert (Hlo : (Qfloor x < Qceiling x)%Z).
  { rewrite Zlt_Qlt. apply Qle_lt_trans with x; [exact Hfl|].
    apply Qle_lteq in Hcu. destruct Hcu as [Hc|Hc]; [exact Hc|].
    exfalso. apply Hx. now exists (Qceiling x). }
  assert (Hhi : (Qceiling x - 1 < Qfloor x + 1)%Z).
  { rewrite Zlt_Qlt. now apply Qlt_trans with x. }
  lia.
Qed.

Lemma Qceiling_nonneg (x : Q) : 0 <= x -> (0 <= Qceiling x)%Z.
Proof.
  intro H. pose proof (Qle_ceiling x) as Hc.
  rewrite Zle_Qle. unfold inject_Z at 1. lra.
Qed.

(** C5, as the code has it.  [getAverageEnergy env t t] is 0 when [t] lies on
    the 10 Hz grid of the envelope (10 t is an integer), and also when [t] is
    at or past the end of the envelope; at any other time from 0 on it is the
    envelope sample that contains [t]. *)
Theorem getAverageEnergy_same_time (energyCurve : list Q) (t : Q) :
  ((exists k : Z, t * 10 == inject_Z k) \/
   (len energyCurve <= Qfloor (t * 10))%Z ->
   getAverageEnergy energyCurve t t = 0) /\
  (~ (exists k : Z, t * 10 == inject_Z k) ->
   (0 <= Qfloor (t * 10) < len energyCurve)%Z ->
   getAverageEnergy energyCurve t t == get energyCurve (Qfloor (t * 10))).
Proof.
  unfold getAverageEnergy, OUTPUT_SAMPLE_RATE, num.
  change (inject_Z 10) with (10 : Q). split.
  - intros [[k Hk]|Hlen].
    + rewrite Hk, Qfloor_Z, Qceiling_Z.
      destruct (k >=? Z.min k (len energyCurve))%Z eqn:E; [reflexivity|lia].
    + destruct (Qfloor (t * 10) >=?
                Z.min (Qceiling (t * 10)) (len energyCurve))%Z eqn:E;
        [reflexivity|lia].
  - intros Hgrid Hin.
    rewrite (Qceiling_floor_succ _ Hgrid).
    set (f := Qfloor (t * 10)) in *.
    replace (Z.min (f + 1) (len energyCurve)) with (f + 1)%Z by lia.
    destruct (f >=? f + 1)%Z eqn:E; [lia|].
    unfold forRange, range.
    replace (Z.to_nat (f + 1 - f)) with 1%nat by lia. simpl.
    replace (f + 1 - f)%Z with 1%Z by lia.
    replace (f + 0)%Z with f by lia.
    unfold inject_Z. field.
Qed.

Lemma getAverageEnergy_same_time_witness :
  getAverageEnergy [0.3; 0.8] 0.1 0.1 = 0 /\
  getAverageEnergy [0.3; 0.8] 0.15 0.15 == 0.8.
Proof.
  destruct (getAverageEnergy_same_time [0.3; 0.8] 0.1) as [H1 _].
  destruct (getAverageEnergy_same_time [0.3; 0.8] 0.15) as [_ H2].
  split.
  - apply H1. left. exists 1%Z. reflexivity.
  - rewrite H2.
    + reflexivity.
    + intros [k Hk]. unfold Qeq in Hk. simpl in Hk. lia.
    + vm_compute. split; [discriminate|reflexivity].
Defined.

(** C5, as the specification states it, fails off the grid: at t = 0.05 the
    range is the single sample 0. *)
Lemma getAverageEnergy_same_time_nonzero :
  ~ (getAverageEnergy [1] 0.05 0.05 == 0).
Proof. vm_compute. discriminate. Qed.

End EnergyFacts.

(** ** Beat worker: tempo, bars and the beat window *)

Section BeatWorkerFacts.
Import JS BeatWorker.

(** C6, as the code has it.  On the nine beats 0, 0.5, ..., 4.0 the tempo is
    120 and the bar times, one every 4 beat indices (0, 4 and 8), are
    0, 2.0 and 4.0. *)
Theorem scenario_tempo_and_bars :
  tempo (analyzeBeatsEnhanced [0; 0.5; 1.0; 1.5; 2.0; 2.5; 3.0; 3.5; 4.0]) == 120 /\
  barTimes (analyzeBeatsEnhanced [0; 0.5; 1.0; 1.5; 2.0; 2.5; 3.0; 3.5; 4.0])
  = [0; 2.0; 4.0] /\
  barCount (analyzeBeatsEnhanced [0; 0.5; 1.0; 1.5; 2.0; 2.5; 3.0; 3.5; 4.0]) = 3%Z.
Proof. split; [|split]; reflexivity. Qed.

(** C6, as the specification states it, fails on the bar times: index 8 is
    a multiple of 4 below the beat count 9. *)
Lemma scenario_bars_not_two :
  ~ (tempo (analyzeBeatsEnhanced [0; 0.5; 1.0; 1.5; 2.0; 2.5; 3.0; 3.5; 4.0]) == 120 /\
     barTimes (analyzeBeatsEnhanced [0; 0.5; 1.0; 1.5; 2.0; 2.5; 3.0; 3.5; 4.0])
     = [0; 2.0]).
Proof. intros [_ H]. vm_compute in H. discriminate. Qed.

(** The sign of the divisor [end - start], by the sample index
    [floor (t * sampleRate)] of the beat: positive strictly between -1024 and
    [length + 1024], not positive from [length + 1024] on, and 0 there. *)
Lemma rmsDivisor_sign (audioLength : Z) (beatTime sampleRate : Q) :
  (0 < audioLength)%Z ->
  ((-1024 < Qfloor (beatTime * sampleRate) < audioLength + 1024)%Z ->
   (0 < rmsDivisor audioLength beatTime sampleRate)%Z) /\
  ((audioLength + 1024 <= Qfloor (beatTime * sampleRate))%Z ->
   (rmsDivisor audioLength beatTime sampleRate <= 0)%Z) /\
  (Qfloor (beatTime * sampleRate) = (audioLength + 1024)%Z ->
   rmsDivisor audioLength beatTime sampleRate = 0%Z).
Proof.
  intro Hlen. unfold rmsDivisor, beatWindow.
  change (2048 / 2)%Z with 1024%Z.
  repeat split; intros; lia.
Qed.

(** The sample index of a beat of the tracker: beat times are positions in
    the recording, in seconds from its start, and the sample rate is
    positive. *)
Lemma beat_sample_index_nonneg (beatTime sampleRate : Q) :
  0 <= beatTime -> 0 < sampleRate -> (0 <= Qfloor (beatTime * sampleRate))%Z.
Proof.
  intros Ht Hsr. rewrite <- (Qfloor_Z 0). apply Qfloor_resp_le.
  change (inject_Z 0) with 0. apply Qmult_le_0_compat; lra.
Qed.

(** C9.  In [calculateBeatStrengths], on what the worker passes to it (beat
    times of the tracker, which are not negative, and a positive sample
    rate): when the audio array is not empty and the beat time [t] satisfies
    [floor (t * sampleRate) < length + 1024], the divisor [end - start] of the
    RMS is strictly positive, so no division by zero occurs.  The clamping
    alone does not guard the division: for a beat at or beyond
    [length + 1024] samples the divisor is not positive, and it is exactly 0
    at [length + 1024]. *)
Theorem rmsDivisor_positive (audioLength : Z) (beatTime sampleRate : Q) :
  (0 < audioLength)%Z -> 0 <= beatTime -> 0 < sampleRate ->
  ((Qfloor (beatTime * sampleRate) < audioLength + 1024)%Z ->
   (0 < rmsDivisor audioLength beatTime sampleRate)%Z) /\
  ((audioLength + 1024 <= Qfloor (beatTime * sampleRate))%Z ->
   (rmsDivisor audioLength beatTime sampleRate <= 0)%Z) /\
  (Qfloor (beatTime * sampleRate) = (audioLength + 1024)%Z ->
   rmsDivisor audioLength beatTime sampleRate = 0%Z).
Proof.
  intros Hlen Ht Hsr.
  pose proof (beat_sample_index_nonneg beatTime sampleRate Ht Hsr) as Hidx.
  destruct (rmsDivisor_sign audioLength beatTime sampleRate Hlen)
    as (Hpos & Hle & Hzero).
  split; [|split].
  - intro H. apply Hpos. lia.
  - exact Hle.
  - exact Hzero.
Qed.

Lemma rmsDivisor_positive_witness :
  (0 < rmsDivisor 44100 0.5 44100)%Z /\
  (rmsDivisor 44100 2 44100 <= 0)%Z /\
  rmsDivisor 1000 2.024 1000 = 0%Z.
Proof.
  destruct (rmsDivisor_positive 44100 0.5 44100) as (H1 & _ & _);
    [lia | discriminate | reflexivity |].
  destruct (rmsDivisor_positive 44100 2 44100) as (_ & H2 & _);
    [lia | discriminate | reflexivity |].
  destruct (rmsDivisor_positive 1000 2.024 1000) as (_ & _ & H3);
    [lia | discriminate | reflexivity |].
  split; [|split].
  - apply H1. vm_compute. reflexivity.
  - apply H2. vm_compute. discriminate.
  - apply H3. reflexivity.
Defined.

End BeatWorkerFacts.

(** ** Section analyzer *)

Section SectionFacts.
Import JS EnergyAnalyzer SectionAnalyzer.

Lemma range_cons (lo hi : Z) :
  (lo < hi)%Z -> range lo hi = lo :: range (lo + 1) hi.
Proof.
  intro H. unfold range.
  replace (Z.to_nat (hi - lo)) with (S (Z.to_nat (hi - (lo + 1)))) by lia.
  simpl. f_equal; [lia|].
  rewrite <- seq_shift, map_map. apply map_ext. intro k. lia.
Qed.

Lemma Path_app a l1 m l2 e : Path a l1 m -> Path m l2 e -> Path a (l1 ++ l2) e.
Proof.
  induction 1 as [a|s l m' H IH]; intro H2; simpl; [exact H2|].
  constructor. auto.
Qed.

Lemma Path_one (s : MusicSection) : Path (startTime s) [s] (endTime s).
Proof. repeat constructor. Qed.

Lemma Path_last a init x e : Path a (init ++ [x]) e -> endTime x = e.
Proof.
  revert a. induction init as [|h t IH]; simpl; intros a H.
  - inversion H as [|s l e' H1]; subst. now inversion H1.
  - inversion H; subst. eauto.
Qed.

Lemma Path_adjacent a l e i x y :
  Path a l e -> nth_error l i = Some x -> nth_error l (S i) = Some y ->
  endTime x = startTime y.
Proof.
  intro H. revert i. induction H as [a|s l e H IH]; intros i Hx Hy.
  - destruct i; discriminate.
  - destruct i as [|i].
    + simpl in Hx, Hy. injection Hx as <-.
      destruct l as [|s' l']; [discriminate|]. injection Hy as <-.
      now inversion H.
    + simpl in Hx. apply (IH i); assumption.
Qed.

Lemma Alternating_adjacent l i x y :
  Alternating l -> nth_error l i = Some x -> nth_error l (S i) = Some y ->
  type x <> type y.
Proof.
  revert i. induction l as [|s t IH]; intros i H Hx Hy.
  - destruct i; discriminate.
  - destruct H as [Hhd Htl]. destruct i as [|i].
    + simpl in Hx, Hy. injection Hx as <-.
      destruct t as [|s' t']; [discriminate|]. now injection Hy as <-.
    + simpl in Hx. apply (IH i); assumption.
Qed.

Lemma Alternating_snoc_type m c c' :
  Alternating (m ++ [c]) -> type c' = type c -> Alternating (m ++ [c']).
Proof.
  intros H Hty. induction m as [|h t IH]; simpl in *; [tauto|].
  destruct H as [Hhd Htl]. split; [|auto].
  destruct t as [|h' t']; simpl in *; [congruence|exact Hhd].
Qed.

Lemma Alternating_snoc m c n :
  Alternating (m ++ [c]) -> type c <> type n ->
  Alternating ((m ++ [c]) ++ [n]).
Proof.
  intros H Hty. induction m as [|h t IH]; simpl in *; [tauto|].
  destruct H as [Hhd Htl]. split; [|auto].
  destruct t as [|h' t']; simpl in *; exact Hhd.
Qed.

Lemma SectionType_eqb_eq a b : SectionType_eqb a b = true <-> a = b.
Proof. destruct a, b; simpl; split; congruence. Qed.

(** The merge loop keeps the sections end to end. *)
Lemma mergeLoop_path rest : forall current merged a e,
  Path a merged (startTime current) -> Path (endTime current) rest e ->
  Path a (mergeLoop rest current merged) e.
Proof.
  induction rest as [|next rest' IH]; intros current merged a e Hm Hr; simpl.
  - inversion Hr; subst. eapply Path_app; [exact Hm|apply Path_one].
  - inversion Hr as [|s l e' Hr' Hs]; subst.
    destruct (SectionType_eqb (type next) (type current)).
    + apply IH; simpl; assumption.
    + apply IH; [|assumption].
      eapply Path_app; [exact Hm|]. rewrite Hs. apply Path_one.
Qed.

(** The merge loop never leaves two equal types side by side. *)
Lemma mergeLoop_alternating rest : forall current merged,
  Alternating (merged ++ [current]) ->
  Alternating (mergeLoop rest current merged).
Proof.
  induction rest as [|next rest' IH]; intros current merged H; simpl; [exact H|].
  destruct (SectionType_eqb (type next) (type current)) eqn:E.
  - apply IH. eapply Alternating_snoc_type; [exact H|reflexivity].
  - apply IH. apply Alternating_snoc; [exact H|].
    intro Heq. symmetry in Heq. apply SectionType_eqb_eq in Heq. congruence.
Qed.

Lemma mergeLoop_nonempty rest : forall current merged,
  exists init final, mergeLoop rest current merged = init ++ [final].
Proof.
  induction rest as [|next rest' IH]; intros current merged; simpl.
  - now exists merged, current.
  - destruct (SectionType_eqb (type next) (type current)); apply IH.
Qed.

Lemma mergeSections_path a sections e :
  Path a sections e -> Path a (mergeSections sections) e.
Proof.
  intro H. destruct sections as [|s [|s' t]]; try exact H.
  unfold mergeSections. inversion H; subst.
  apply mergeLoop_path; [constructor|assumption].
Qed.

Lemma mergeSections_alternating sections : Alternating (mergeSections sections).
Proof.
  destruct sections as [|s [|s' t]]; [exact I|simpl; auto|].
  unfold mergeSections. apply mergeLoop_alternating. simpl. auto.
Qed.

Lemma mergeSections_nonempty sections :
  sections <> [] -> exists init final, mergeSections sections = init ++ [final].
Proof.
  destruct sections as [|s [|s' t]]; intro H.
  - congruence.
  - now exists [], s.
  - apply mergeLoop_nonempty.
Qed.

(** *** The boundaries run from 0 to the duration *)

Lemma get_snoc (l : list Q) (x : Q) : get (l ++ [x]) (len l) = x.
Proof.
  unfold get, len.
  destruct (Z.of_nat (length l) <? 0)%Z eqn:E; [apply Z.ltb_lt in E; lia|].
  rewrite Nat2Z.id, app_nth2 by apply Nat.le_refl.
  now rewrite Nat.sub_diag.
Qed.

Lemma len_shape (x : Q) mid d :
  len (x :: mid ++ [d]) = (Z.of_nat (length mid) + 2)%Z.
Proof.
  unfold len.
  change (length (x :: mid ++ [d])) with (S (length (mid ++ [d]))).
  rewrite length_app. simpl length. lia.
Qed.

Lemma len_cons {A : Type} (x : A) l : len (x :: l) = (len l + 1)%Z.
Proof. unfold len. simpl length. lia. Qed.

Lemma changeBoundaries_head changes barTimes :
  exists t, changeBoundaries changes barTimes = 0 :: t.
Proof.
  unfold changeBoundaries.
  set (step := fun (boundaries : list Q) (change : EnergyChange) => _).
  enough (H : forall t, exists t', fold_left step changes (0 :: t) = 0 :: t')
    by apply H.
  induction changes as [|c cs IH]; intro t; simpl.
  - now exists t.
  - unfold step at 2. destruct (leb _ _); [apply (IH (t ++ [_]))|apply IH].
Qed.

Lemma closeBoundaries_shape t d :
  exists mid, closeBoundaries (0 :: t) d = 0 :: mid ++ [d].
Proof.
  unfold closeBoundaries.
  destruct (leb _ _); [now exists t|].
  destruct (1 <? _)%Z eqn:E; [|now exists t].
  destruct t as [|b t']; [discriminate|].
  exists (removelast (b :: t')). reflexivity.
Qed.

Lemma insertSorted_Forall (P : Q -> Prop) x l :
  P x -> Forall P l -> Forall P (insertSorted x l).
Proof.
  intros Hx H. induction H as [|h t Hh Ht IH]; simpl.
  - auto.
  - destruct (leb x h); auto.
Qed.

Lemma sortNumbers_Forall (P : Q -> Prop) l :
  Forall P l -> Forall P (sortNumbers l).
Proof.
  induction 1; simpl; auto using insertSorted_Forall.
Qed.

Lemma insertSorted_above d l :
  Forall (fun p => p < d) l -> insertSorted d l = l ++ [d].
Proof.
  induction 1 as [|h t Hh Ht IH]; simpl; [reflexivity|].
  apply leb_gt in Hh. rewrite Hh. now f_equal.
Qed.

(** The fallback loop only appends bar times strictly inside the track:
    cells 0 and 1 of the array stay the start and the duration. *)
Lemma barLoop_inside barTimes d idxs : forall ps,
  Forall (fun p => 0 < p /\ p < d) ps ->
  exists ps',
    fold_left
      (fun bs i =>
         let barTime := get barTimes i in
         if ltb (get bs 0 + MIN_SECTION_DURATION) barTime
            && ltb barTime (get bs 1 - MIN_SECTION_DURATION)
         then bs ++ [barTime] else bs)
      idxs (0 :: d :: ps) = 0 :: d :: ps'
    /\ Forall (fun p => 0 < p /\ p < d) ps'.
Proof.
  induction idxs as [|i idxs IH]; intros ps Hps; simpl.
  - now exists ps.
  - change (get (0 :: d :: ps) 0) with (0 : Q).
    change (get (0 :: d :: ps) 1) with d.
    destruct (ltb (0 + MIN_SECTION_DURATION) (get barTimes i)
              && ltb (get barTimes i) (d - MIN_SECTION_DURATION)) eqn:E.
    + apply andb_prop in E. destruct E as [E1 E2].
      apply ltb_lt in E1, E2. unfold MIN_SECTION_DURATION in E1, E2.
      apply (IH (ps ++ [get barTimes i])).
      apply Forall_app. split; [assumption|].
      constructor; [|constructor]. split; lra.
    + now apply IH.
Qed.

Lemma barBoundaries_shape mid d barTimes :
  0 < d ->
  exists mid', barBoundaries (0 :: mid ++ [d]) barTimes = 0 :: mid' ++ [d].
Proof.
  intro Hd. unfold barBoundaries.
  destruct ((_ =? 2)%Z && (0 <? len barTimes)%Z) eqn:E;
    [|now exists mid].
  apply andb_prop in E. destruct E as [E _].
  assert (mid = []) as ->.
  { apply Z.eqb_eq in E. rewrite len_shape in E.
    destruct mid; [reflexivity|]. simpl length in E. lia. }
  simpl app.
  destruct (barLoop_inside barTimes d (rangeStep 8 (len barTimes) 8) [])
    as (ps & Hfold & Hps); [constructor|].
  cbv zeta in Hfold |- *. rewrite Hfold.
  exists (sortNumbers ps). simpl.
  assert (Hs := sortNumbers_Forall _ _ Hps).
  rewrite (insertSorted_above d (sortNumbers ps))
    by (eapply Forall_impl; [|exact Hs]; simpl; tauto).
  destruct (sortNumbers ps) as [|h t]; simpl.
  - assert (leb 0 d = true) as -> by (apply leb_le; lra). reflexivity.
  - inversion Hs as [|? ? [Hh _] _]; subst.
    assert (leb 0 h = true) as -> by (apply leb_le; lra). reflexivity.
Qed.

Lemma boundaries_shape energyChanges barTimes d :
  0 < d ->
  exists mid,
    barBoundaries
      (closeBoundaries (changeBoundaries energyChanges barTimes) d) barTimes
    = 0 :: mid ++ [d].
Proof.
  intro Hd.
  destruct (changeBoundaries_head energyChanges barTimes) as [t ->].
  destruct (closeBoundaries_shape t d) as [mid ->].
  now apply barBoundaries_shape.
Qed.

(** Consecutive boundaries give sections laid end to end. *)
Lemma sections_path energyCurve boundaries d (m : nat) : forall k : Z,
  Path (get boundaries k)
       (map (sectionAt energyCurve boundaries d) (range k (k + Z.of_nat m)))
       (get boundaries (k + Z.of_nat m)).
Proof.
  induction m as [|m IH]; intro k.
  - rewrite range_empty by lia. simpl. rewrite Z.add_0_r. constructor.
  - replace (k + Z.of_nat (S m))%Z with (k + 1 + Z.of_nat m)%Z by lia.
    rewrite range_cons by lia. simpl map.
    apply (Path_cons (sectionAt energyCurve boundaries d k)). apply IH.
Qed.

Lemma SectionInvariants_intro d sections :
  sections <> [] -> Path 0 sections d -> Alternating sections ->
  (exists init final, sections = init ++ [final]) ->
  SectionInvariants d sections.
Proof.
  intros Hne Hp Ha (init & final & Hl). repeat split.
  - destruct sections as [|s t]; [congruence|].
    exists s, t. split; [reflexivity|]. now inversion Hp.
  - intros i a b. apply (Path_adjacent _ _ _ _ _ _ Hp).
  - exists init, final. split; [assumption|]. subst.
    apply (Path_last _ _ _ _ Hp).
  - intros i a b. now apply Alternating_adjacent.
Qed.

(** C1.  For every energy envelope, bar-timestamp list and positive
    duration, the sections returned by [analyzeSections] start at 0, each
    one ends where the next one starts, the last one ends at the duration,
    and no two adjacent sections have the same type. *)
Theorem analyzeSections_invariants (energyCurve barTimes : list Q) (d : Q) :
  0 < d -> SectionInvariants d (analyzeSections energyCurve barTimes d).
Proof.
  intro Hd. unfold analyzeSections.
  destruct (len energyCurve =? 0)%Z.
  - repeat split.
    + eexists _, []. split; reflexivity.
    + intros [|i] a b Ha Hb; simpl in Hb; [discriminate|destruct i; discriminate].
    + eexists [], _. split; reflexivity.
    + intros [|i] a b Ha Hb; simpl in Hb; [discriminate|destruct i; discriminate].
  - destruct (boundaries_shape (detectEnergyChanges energyCurve 0.15) barTimes d Hd)
      as [mid ->].
    set (bs := 0 :: mid ++ [d]).
    assert (Hlen : (len bs - 1 = 0 + Z.of_nat (S (length mid)))%Z).
    { unfold bs. rewrite len_shape. lia. }
    assert (Hp := sections_path energyCurve bs d (S (length mid)) 0).
    rewrite <- Hlen in Hp.
    replace (get bs (len bs - 1)) with d in Hp.
    2:{ replace (len bs - 1)%Z with (len (0 :: mid))
          by (unfold bs; rewrite len_shape, len_cons; unfold len; lia).
        symmetry. apply (get_snoc (0 :: mid) d). }
    change (get bs 0) with (0 : Q) in Hp.
    assert (Hne : map (sectionAt energyCurve bs d) (range 0 (len bs - 1)) <> []).
    { rewrite Hlen, range_cons by lia. discriminate. }
    apply SectionInvariants_intro.
    + destruct (mergeSections_nonempty _ Hne) as (i & f & ->).
      now destruct i.
    + now apply mergeSections_path.
    + apply mergeSections_alternating.
    + now apply mergeSections_nonempty.
Qed.

Lemma analyzeSections_invariants_witness :
  SectionInvariants 30
    (analyzeSections (repeat 0.1 100 ++ repeat 0.9 100 ++ repeat 0.1 100)
                     [0; 2; 4; 6; 8; 10; 12; 14; 16; 18; 20; 22; 24; 26; 28; 30]
                     30).
Proof. apply analyzeSections_invariants. reflexivity. Defined.

End SectionFacts.

(** ** The constant-envelope scenario *)

Section ScenarioFacts.
Import JS EnergyAnalyzer SectionAnalyzer.

(** A 240 s track with the envelope constantly 0.5 (2400 samples at 10 Hz)
    and no bars: one section, whose energy is the average 0.5. *)
Lemma constant_envelope_sections :
  exists e,
    analyzeSections (repeat 0.5 2400) [] 240
    = [{| type := intro; startTime := 0; endTime := 240; energy := e |}]
    /\ e == 0.5.
Proof.
  eexists. split.
  - vm_compute. reflexivity.
  - vm_compute. reflexivity.
Qed.

(** C2, as the code has it.  For a 240-second track whose envelope is
    constantly 0.5 and whose bar list is empty, [analyzeSections] returns
    exactly one section, from 0 to 240 with energy 0.5, and its type is
    'intro': the section starts before second 15 with an energy below 0.7,
    which is the first rule of the classification. *)
Theorem constant_envelope_is_intro :
  exists s,
    analyzeSections (repeat 0.5 2400) [] 240 = [s] /\
    type s = intro /\ startTime s == 0 /\ endTime s == 240 /\ energy s == 0.5.
Proof.
  destruct constant_envelope_sections as (e & -> & He).
  eexists. split; [reflexivity|]. simpl. repeat split; auto; reflexivity.
Qed.

(** C2, as the specification states it, fails: the single section is not a
    'verse'. *)
Lemma constant_envelope_not_verse :
  ~ (exists s,
        analyzeSections (repeat 0.5 2400) [] 240 = [s] /\
        type s = verse /\ startTime s == 0 /\ endTime s == 240 /\
        energy s == 0.5).
Proof.
  destruct constant_envelope_sections as (e & H & _).
  intros (s & Hs & Hty & _). rewrite H in Hs.
  injection Hs as <-. discriminate.
Qed.

End ScenarioFacts.

(** ** Spectral engine *)

Section SpectrumFacts.
Import JS DrumAnalyzer.
Context {M : MathLib}.

Lemma fold_left_invariant {S I : Type} (P : S -> Prop) (body : S -> I -> S)
  (l : list I) : forall s,
  P s -> (forall s i, P s -> P (body s i)) -> P (fold_left body l s).
Proof.
  induction l as [|i l IH]; intros s Hs Hstep; simpl; auto.
Qed.

Lemma toInt32_small (z : Z) : (0 <= z < 2 ^ 31)%Z -> toInt32 z = z.
Proof.
  intro H. unfold toInt32.
  change (2 ^ 32)%Z with 4294967296%Z. change (2 ^ 31)%Z with 2147483648%Z in *.
  rewrite Z.mod_small by lia.
  destruct (z <? 2147483648)%Z eqn:E; [reflexivity|].
  apply Z.ltb_ge in E. lia.
Qed.

(** The test [(N & (N - 1)) !== 0] lets every power of two through. *)
Lemma band_power_of_two (N : Z) : PowerOfTwo N -> band N (N - 1) = 0%Z.
Proof.
  intros (k & Hk & ->). unfold band.
  destruct (Z.lt_ge_cases k 31) as [Hlt|Hge].
  - assert (H2 : (0 < 2 ^ k < 2 ^ 31)%Z).
    { split; [apply Z.pow_pos_nonneg; lia|apply Z.pow_lt_mono_r; lia]. }
    rewrite !toInt32_small by lia.
    replace (2 ^ k - 1)%Z with (Z.ones k) by (rewrite Z.ones_equiv; lia).
    rewrite Z.land_ones by lia. apply Z_mod_same_full.
  - destruct (Z.eq_dec k 31) as [->|Hne].
    + reflexivity.
    + assert (E : toInt32 (2 ^ k) = 0%Z).
      { unfold toInt32.
        replace k with (32 + (k - 32))%Z by lia.
        rewrite Z.pow_add_r by lia.
        rewrite Z.mul_comm, Z_mod_mult. reflexivity. }
      rewrite E. apply Z.land_0_l.
Qed.

(** On a positive length below 2^31 the test rejects everything else. *)
Lemma band_not_power_of_two (N : Z) :
  (0 < N < 2 ^ 31)%Z -> ~ PowerOfTwo N -> band N (N - 1) <> 0%Z.
Proof.
  intros HN Hnp Hz. unfold band in Hz.
  rewrite !toInt32_small in Hz by lia.
  pose proof (Z.log2_spec N (proj1 HN)) as [Hlo Hhi].
  pose proof (Z.log2_nonneg N) as Hk.
  assert (Hne : N <> (2 ^ Z.log2 N)%Z).
  { intro E. apply Hnp. now exists (Z.log2 N). }
  assert (Hlog : Z.log2 (N - 1) = Z.log2 N).
  { apply Z.log2_unique; lia. }
  assert (H1 : Z.testbit N (Z.log2 N) = true) by (apply Z.bit_log2; lia).
  assert (H2 : Z.testbit (N - 1) (Z.log2 N) = true).
  { rewrite <- Hlog. apply Z.bit_log2.
    assert (0 < 2 ^ Z.log2 N)%Z by (apply Z.pow_pos_nonneg; lia). lia. }
  assert (H3 : Z.testbit (Z.land N (N - 1)) (Z.log2 N) = true).
  { rewrite Z.land_spec, H1, H2. reflexivity. }
  rewrite Hz, Z.bits_0 in H3. discriminate.
Qed.

Lemma computeMagnitudeSpectrum_throws (samples : list Q) :
  band (len samples) (len samples - 1) <> 0%Z ->
  computeMagnitudeSpectrum samples
  = Thrown (FFT_REQUIRES_POWER_OF_2 (len samples)).
Proof.
  intro H. unfold computeMagnitudeSpectrum.
  destruct (band (len samples) (len samples - 1) =? 0)%Z eqn:E;
    [apply Z.eqb_eq in E; contradiction|reflexivity].
Qed.

Lemma computeMagnitudeSpectrum_returns (samples : list Q) :
  band (len samples) (len samples - 1) = 0%Z ->
  exists spectrum,
    computeMagnitudeSpectrum samples = Ok spectrum /\
    length spectrum = Z.to_nat (len samples / 2).
Proof.
  intro H. unfold computeMagnitudeSpectrum. rewrite H. simpl negb. cbv iota.
  eexists. split; [reflexivity|].
  unfold forRange. apply fold_left_invariant.
  - apply zeros_length.
  - intros s i Hs. now rewrite set_length.
Qed.

(** The magnitude spectrum of a frame whose length is a power of two has
    half as many values as the frame. *)
Lemma computeMagnitudeSpectrum_power_of_two (samples : list Q) :
  PowerOfTwo (len samples) ->
  exists spectrum,
    computeMagnitudeSpectrum samples = Ok spectrum /\
    length spectrum = (length samples / 2)%nat.
Proof.
  intro H. apply band_power_of_two in H.
  destruct (computeMagnitudeSpectrum_returns samples H) as (sp & E & L).
  exists sp. split; [assumption|]. rewrite L. unfold len.
  change 2%Z with (Z.of_nat 2). rewrite <- Nat2Z.inj_div. apply Nat2Z.id.
Qed.

(** A non-empty frame (of less than 2^31 samples) whose length is not a
    power of two makes the transform throw. *)
Lemma computeMagnitudeSpectrum_not_power_of_two (samples : list Q) :
  (0 < len samples < 2 ^ 31)%Z -> ~ PowerOfTwo (len samples) ->
  computeMagnitudeSpectrum samples
  = Thrown (FFT_REQUIRES_POWER_OF_2 (len samples)).
Proof.
  intros HN Hnp. apply computeMagnitudeSpectrum_throws.
  now apply band_not_power_of_two.
Qed.

Lemma zero_not_power_of_two : ~ PowerOfTwo 0.
Proof.
  intros (k & Hk & E).
  assert (0 < 2 ^ k)%Z by (apply Z.pow_pos_nonneg; lia). lia.
Qed.

(** The test does not reject the empty frame: its length 0 is not a power
    of two, but [(N & (N - 1))] is [0 & -1 = 0] there, so that nothing is
    thrown and the empty spectrum is returned.  The transform is private to
    its module and the frame loop of [analyzeDrums], its only caller, never
    passes an empty frame ([frame_length] below). *)
Lemma computeMagnitudeSpectrum_empty_frame :
  ~ PowerOfTwo (len (@nil Q)) /\ computeMagnitudeSpectrum [] = Ok [].
Proof. split; [exact zero_not_power_of_two|reflexivity]. Qed.

End SpectrumFacts.

(** ** Drum onset detector *)

Section DrumFacts.
Import JS DrumAnalyzer.
Context {M : MathLib}.

Lemma lastOpt_some {A : Type} (l : list A) (y : A) :
  lastOpt l = Some y -> exists init, l = init ++ [y].
Proof.
  unfold lastOpt. intro H. exists (rev (tl (rev l))).
  destruct (rev l) as [|x r] eqn:E; [discriminate|].
  injection H as ->. simpl tl.
  rewrite <- (rev_involutive l), E. reflexivity.
Qed.

Lemma Spaced_snoc gap init y x :
  Spaced gap (init ++ [y]) -> y < x -> gap <= x - y ->
  Spaced gap ((init ++ [y]) ++ [x]).
Proof.
  intros H Hlt Hgap. induction init as [|h t IH]; simpl in *.
  - tauto.
  - destruct H as [Hhd Htl]. split; [|auto].
    destruct t; simpl in *; exact Hhd.
Qed.

(** The onsets kept by [detectOnsets] are at least [minInterval] apart. *)
Lemma detectOnsets_spaced (energy frameTimes : list Q) (threshold minInterval : Q) :
  0 < minInterval ->
  Spaced minInterval (detectOnsets energy frameTimes threshold minInterval).
Proof.
  intro Hpos. unfold detectOnsets, forRange.
  apply fold_left_invariant; [exact I|].
  intros onsets i H.
  destruct (_ && _); [|exact H].
  destruct (lastOpt onsets) as [lastOnset|] eqn:E.
  - destruct (leb minInterval (get frameTimes i - lastOnset)) eqn:L; [|exact H].
    apply leb_le in L. apply lastOpt_some in E. destruct E as [init ->].
    apply Spaced_snoc; [assumption|lra|assumption].
  - apply lastOpt_nil in E. subst. simpl. auto.
Qed.

Lemma applyWindow_length (samples window : list Q) :
  length (applyWindow samples window) = length samples.
Proof.
  unfold applyWindow. rewrite length_map, range_length. unfold len. lia.
Qed.

(** Every frame of the loop is a full frame of [FFT_SIZE] samples. *)
Lemma frame_length (audioData : list Q) (frame : Z) :
  (0 <= frame)%Z -> (frame * HOP_SIZE + FFT_SIZE <= len audioData)%Z ->
  length (firstn (Z.to_nat (frame * HOP_SIZE + FFT_SIZE - frame * HOP_SIZE))
                 (skipn (Z.to_nat (frame * HOP_SIZE)) audioData))
  = Z.to_nat FFT_SIZE.
Proof.
  intros H0 H. rewrite length_firstn, length_skipn.
  unfold len, HOP_SIZE, FFT_SIZE in *. lia.
Qed.

(** On full frames the transform never throws: the loop runs to its end
    and computes one spectrum per frame. *)
Lemma frameLoop_returns (audioData : list Q) (sampleRate : Q) (window : list Q)
  (frames : list Z) : forall arrays ffts,
  Forall (fun frame => (0 <= frame)%Z /\
                       (frame * HOP_SIZE + FFT_SIZE <= len audioData)%Z) frames ->
  exists arrays',
    frameLoop audioData sampleRate window frames arrays ffts
    = (Ok arrays', (ffts + length frames)%nat).
Proof.
  induction frames as [|frame frames IH]; intros arrays ffts H; simpl.
  - exists arrays. now rewrite Nat.add_0_r.
  - inversion H as [|? ? [H0 Hf] Hrest]; subst.
    set (windowed := applyWindow _ window).
    assert (L : len windowed = 2048%Z).
    { unfold len, windowed. rewrite applyWindow_length, frame_length by assumption.
      reflexivity. }
    destruct (computeMagnitudeSpectrum_returns windowed) as (sp & -> & _).
    { rewrite L. reflexivity. }
    rewrite <- Nat.add_succ_comm. apply IH. assumption.
Qed.

Lemma range_frames (audioData : list Q) :
  Forall (fun frame => (0 <= frame)%Z /\
                       (frame * HOP_SIZE + FFT_SIZE <= len audioData)%Z)
         (range 0 ((len audioData - FFT_SIZE) / HOP_SIZE)).
Proof.
  apply Forall_forall. intros frame Hin. apply in_range in Hin.
  unfold HOP_SIZE, FFT_SIZE in *.
  pose proof (Z.mul_div_le (len audioData - 2048) 512). lia.
Qed.


(** What [analyzeDrums] returns: the empty pattern without any spectrum
    when there is no frame, and otherwise the onsets detected in the three
    band-energy arrays, with the estimated pattern length. *)
Lemma analyzeDrums_run (audioData : list Q) (sampleRate : Q) (beatTimes : list Q) :
  let numFrames := ((len audioData - FFT_SIZE) / HOP_SIZE)%Z in
  ((numFrames <= 0)%Z /\
   analyzeDrums audioData sampleRate beatTimes
   = {| outcome := Ok {| kickTimes := []; snareTimes := []; hihatTimes := [];
                         patternLength := 0 |};
        spectraComputed := 0 |})
  \/
  ((0 < numFrames)%Z /\
   exists a,
     analyzeDrums audioData sampleRate beatTimes
     = {| outcome :=
            Ok {| kickTimes := detectOnsets a.(kickEnergy) a.(frameTimes)
                                 ONSET_THRESHOLDS_kick MIN_HIT_INTERVAL_kick;
                  snareTimes := detectOnsets a.(snareEnergy) a.(frameTimes)
                                  ONSET_THRESHOLDS_snare MIN_HIT_INTERVAL_snare;
                  hihatTimes := detectOnsets a.(hihatEnergy) a.(frameTimes)
                                  ONSET_THRESHOLDS_hihat MIN_HIT_INTERVAL_hihat;
                  patternLength := estimatePatternLength beatTimes |};
          spectraComputed := Z.to_nat numFrames |}).
Proof.
  intro numFrames. unfold analyzeDrums. fold numFrames.
  destruct (numFrames <=? 0)%Z eqn:E.
  - left. apply Z.leb_le in E. split; [assumption|reflexivity].
  - right. apply Z.leb_gt in E. split; [assumption|].
    edestruct (frameLoop_returns audioData sampleRate
                 (createHammingWindow FFT_SIZE) (range 0 numFrames))
      as [a Ha]; [apply range_frames|].
    rewrite Ha. exists a. simpl. rewrite range_length. do 2 f_equal. lia.
Qed.

(** C4.  For every waveform, sample rate and beat list [analyzeDrums]
    returns a pattern, and each of its three onset arrays is strictly
    increasing with consecutive timestamps at least the minimum spacing of
    its band apart: 0.15 s for the kick, 0.12 s for the snare, 0.05 s for
    the hi-hat. *)
Theorem analyzeDrums_spacing (audioData : list Q) (sampleRate : Q)
  (beatTimes : list Q) :
  exists pattern,
    outcome (analyzeDrums audioData sampleRate beatTimes) = Ok pattern /\
    Spaced 0.15 (kickTimes pattern) /\
    Spaced 0.12 (snareTimes pattern) /\
    Spaced 0.05 (hihatTimes pattern).
Proof.
  destruct (analyzeDrums_run audioData sampleRate beatTimes)
    as [[_ ->]|[_ [a ->]]]; eexists; (split; [reflexivity|]); simpl.
  - auto.
  - repeat split; apply detectOnsets_spaced; reflexivity.
Qed.

End DrumFacts.


(** ** Pattern length *)

Section PatternFacts.
Import JS DrumAnalyzer.

Lemma get_cons_succ (a : Q) (l : list Q) (z : Z) :
  (0 <= z)%Z -> get (a :: l) (z + 1) = get l z.
Proof.
  intro H. unfold get.
  destruct (z + 1 <? 0)%Z eqn:E1; [apply Z.ltb_lt in E1; lia|].
  destruct (z <? 0)%Z eqn:E2; [apply Z.ltb_lt in E2; lia|].
  replace (Z.to_nat (z + 1)) with (S (Z.to_nat z)) by lia. reflexivity.
Qed.

Lemma get_last (a : Q) (l : list Q) :
  get (a :: l) (len (a :: l) - 1) = last (a :: l) 0.
Proof.
  revert a. induction l as [|b l IH]; intro a; [reflexivity|].
  rewrite len_cons.
  replace (len (b :: l) + 1 - 1)%Z with (len (b :: l) - 1 + 1)%Z by lia.
  rewrite get_cons_succ by (rewrite len_cons; unfold len; lia).
  rewrite IH. reflexivity.
Qed.

(** The differences of consecutive beats telescope. *)
Lemma beatIntervals_sum (a : Q) (l : list Q) :
  fold_right Qplus 0 (beatIntervals (a :: l)) == last (a :: l) 0 - a.
Proof.
  revert a. induction l as [|b l IH]; intro a.
  - simpl. ring.
  - change (beatIntervals (a :: b :: l)) with ((b - a) :: beatIntervals (b :: l)).
    change (last (a :: b :: l) 0) with (last (b :: l) 0).
    simpl fold_right. rewrite (IH b). ring.
Qed.

Lemma beatIntervals_length (a : Q) (l : list Q) :
  length (beatIntervals (a :: l)) = length l.
Proof.
  revert a. induction l as [|b l IH]; intro a; [reflexivity|].
  change (length (beatIntervals (a :: b :: l)))
    with (S (length (beatIntervals (b :: l)))).
  now rewrite (IH b).
Qed.

(** The estimate of the code, (last - first) / (n - 1) * 16, is 16 times
    the mean inter-beat interval. *)
Lemma estimatePatternLength_mean (beatTimes : list Q) :
  (2 <= len beatTimes)%Z ->
  estimatePatternLength beatTimes == meanBeatInterval beatTimes * 16.
Proof.
  intro H. unfold estimatePatternLength, meanBeatInterval.
  destruct (2 <=? len beatTimes)%Z eqn:E; [|apply Z.leb_gt in E; lia].
  destruct beatTimes as [|a l]; [discriminate|].
  rewrite get_last, beatIntervals_sum, beatIntervals_length.
  change (get (a :: l) 0) with a.
  rewrite len_cons. unfold num, len.
  replace (Z.of_nat (length l) + 1 - 1)%Z with (Z.of_nat (length l)) by lia.
  reflexivity.
Qed.

Lemma estimatePatternLength_few (beatTimes : list Q) :
  (len beatTimes < 2)%Z -> estimatePatternLength beatTimes = 0.
Proof.
  intro H. unfold estimatePatternLength.
  destruct (2 <=? len beatTimes)%Z eqn:E; [apply Z.leb_le in E; lia|reflexivity].
Qed.

Context {M : MathLib}.

(** The frame loop is entered from 2560 samples on: one frame of 2048
    samples and one hop of 512. *)
Lemma analyzeDrums_no_frame (audioData : list Q) (sampleRate : Q)
  (beatTimes : list Q) :
  (len audioData < 2560)%Z ->
  analyzeDrums audioData sampleRate beatTimes
  = {| outcome := Ok {| kickTimes := []; snareTimes := []; hihatTimes := [];
                        patternLength := 0 |};
       spectraComputed := 0 |}.
Proof.
  intro H.
  destruct (analyzeDrums_run audioData sampleRate beatTimes)
    as [[_ ->]|[Hn _]]; [reflexivity|].
  unfold FFT_SIZE, HOP_SIZE in Hn. exfalso.
  assert ((len audioData - 2048) / 512 <= 0)%Z; [|lia].
  destruct (Z.le_gt_cases 0 (len audioData - 2048)).
  - rewrite Z.div_small by lia. lia.
  - apply Z.lt_le_incl, Z.div_lt_upper_bound; lia.
Qed.

Lemma analyzeDrums_frames (audioData : list Q) (sampleRate : Q)
  (beatTimes : list Q) :
  (2560 <= len audioData)%Z ->
  exists pattern,
    outcome (analyzeDrums audioData sampleRate beatTimes) = Ok pattern /\
    patternLength pattern = estimatePatternLength beatTimes.
Proof.
  intro H.
  destruct (analyzeDrums_run audioData sampleRate beatTimes)
    as [[Hn _]|[_ [a ->]]].
  - unfold FFT_SIZE, HOP_SIZE in Hn. exfalso.
    assert (1 <= (len audioData - 2048) / 512)%Z
      by (apply Z.div_le_lower_bound; lia).
    lia.
  - eexists. split; reflexivity.
Qed.

(** C8, as the code has it.  The early return is taken when
    [numFrames = floor ((length - 2048) / 512)] is not positive, that is for
    every waveform of fewer than 2560 samples (one frame and one hop), and so
    for every waveform shorter than one frame of 2048 samples: then the
    kick, snare and hi-hat arrays are empty and the pattern length is 0,
    without any spectrum being computed, whatever the beats.  From 2560
    samples on, the pattern length is the mean inter-beat interval times 16
    if at least 2 beats are supplied, and 0 otherwise. *)
Theorem analyzeDrums_patternLength (audioData : list Q) (sampleRate : Q)
  (beatTimes : list Q) :
  ((len audioData < 2560)%Z ->
   analyzeDrums audioData sampleRate beatTimes
   = {| outcome := Ok {| kickTimes := []; snareTimes := []; hihatTimes := [];
                         patternLength := 0 |};
        spectraComputed := 0 |}) /\
  ((2560 <= len audioData)%Z ->
   exists pattern,
     outcome (analyzeDrums audioData sampleRate beatTimes) = Ok pattern /\
     ((2 <= len beatTimes)%Z ->
      patternLength pattern == meanBeatInterval beatTimes * 16) /\
     ((len beatTimes < 2)%Z -> patternLength pattern = 0)).
Proof.
  split.
  - apply analyzeDrums_no_frame.
  - intro H.
    destruct (analyzeDrums_frames audioData sampleRate beatTimes H)
      as (pattern & Hp & Hl).
    exists pattern. rewrite Hl. split; [exact Hp|]. split.
    + apply estimatePatternLength_mean.
    + apply estimatePatternLength_few.
Qed.

End PatternFacts.

Lemma analyzeDrums_patternLength_witness :
  @DrumAnalyzer.analyzeDrums floorMath (repeat 0 2559) 44100 [0; 0.5; 1]
  = {| DrumAnalyzer.outcome :=
         JS.Ok {| DrumAnalyzer.kickTimes := []; DrumAnalyzer.snareTimes := [];
                  DrumAnalyzer.hihatTimes := [];
                  DrumAnalyzer.patternLength := 0 |};
       DrumAnalyzer.spectraComputed := 0 |}
  /\
  exists pattern,
    DrumAnalyzer.outcome
      (@DrumAnalyzer.analyzeDrums floorMath (repeat 0 2560) 44100 [0; 0.5; 1])
    = JS.Ok pattern /\
    DrumAnalyzer.patternLength pattern == meanBeatInterval [0; 0.5; 1] * 16.
Proof.
  split.
  - apply (@analyzeDrums_patternLength floorMath (repeat 0 2559) 44100 [0; 0.5; 1]).
    unfold JS.len. rewrite repeat_length. reflexivity.
  - destruct (@analyzeDrums_patternLength floorMath (repeat 0 2560) 44100
                [0; 0.5; 1]) as [_ H].
    destruct H as (pattern & Hp & Hmean & _).
    + unfold JS.len. rewrite repeat_length. discriminate.
    + exists pattern. split; [exact Hp|]. apply Hmean. discriminate.
Defined.

(** C8, as stated, fails on a waveform that is not shorter than one frame:
    with exactly 2048 samples (0.256 s at 8000 Hz) and beats at 0 s and
    0.25 s there is no hop after the frame, [numFrames] is 0 and the pattern
    length is 0, not 16 times the mean interval of 0.25 s. *)
Lemma analyzeDrums_patternLength_one_frame :
  (2 <= JS.len [0; 0.25]%Q)%Z /\
  ~ (JS.len (repeat 0 2048) < 2048)%Z /\
  ~ (exists pattern,
       DrumAnalyzer.outcome
         (@DrumAnalyzer.analyzeDrums floorMath (repeat 0 2048) 8000 [0; 0.25])
       = JS.Ok pattern /\
       DrumAnalyzer.patternLength pattern == meanBeatInterval [0; 0.25] * 16).
Proof.
  split; [discriminate|]. split.
  - unfold JS.len. rewrite repeat_length. discriminate.
  - intros (pattern & H & Hp).
    rewrite (@analyzeDrums_no_frame floorMath) in H
      by (unfold JS.len; rewrite repeat_length; reflexivity).
    injection H as <-. vm_compute in Hp. discriminate.
Qed.

(** ** Sums over index ranges *)

Section SumFacts.
Import JS.

Lemma fold_left_invariant_In {S I : Type} (P : S -> Prop) (body : S -> I -> S)
  (l : list I) : forall s,
  P s -> (forall s i, In i l -> P s -> P (body s i)) -> P (fold_left body l s).
Proof.
  induction l as [|i l IH]; intros s Hs Hstep; simpl; [assumption|].
  apply IH.
  - apply Hstep; [now left|assumption].
  - intros s' j Hj. apply Hstep. now right.
Qed.

Lemma get_In (l : list Q) (i : Z) : (0 <= i < len l)%Z -> In (get l i) l.
Proof.
  intro H. unfold get, len in *.
  destruct (i <? 0)%Z eqn:E; [apply Z.ltb_lt in E; lia|].
  apply nth_In. lia.
Qed.

Lemma get_Forall_in (P : Q -> Prop) (l : list Q) (i : Z) :
  Forall P l -> (0 <= i < len l)%Z -> P (get l i).
Proof.
  intros H Hi. rewrite Forall_forall in H. apply H. now apply get_In.
Qed.

Lemma num_len_cons {A : Type} (x : A) (l : list A) :
  num (len (x :: l)) == num (len l) + 1.
Proof.
  unfold num, len. simpl length. rewrite Nat2Z.inj_succ, <- Z.add_1_r.
  rewrite inject_Z_plus. reflexivity.
Qed.

(** A sum of [n] terms between [lo] and [hi] lies between [n lo] and [n hi]. *)
Lemma sum_bounds (f : Z -> Q) (lo hi : Q) (l : list Z) :
  Forall (fun j => lo <= f j <= hi) l ->
  forall acc,
    acc + lo * num (len l) <= fold_left (fun a j => a + f j) l acc
    /\ fold_left (fun a j => a + f j) l acc <= acc + hi * num (len l).
Proof.
  induction 1 as [|j l [Hlo Hhi] Hl IH]; intro acc; simpl fold_left.
  - unfold num, len. simpl. split; ring_simplify; apply Qle_refl.
  - destruct (IH (acc + f j)) as [H1 H2].
    rewrite num_len_cons. split.
    + eapply Qle_trans; [|exact H1]. ring_simplify.
      apply Qplus_le_l with (z := - acc - lo * num (len l)). ring_simplify.
      exact Hlo.
    + eapply Qle_trans; [exact H2|]. ring_simplify.
      apply Qplus_le_l with (z := - acc - hi * num (len l)). ring_simplify.
      exact Hhi.
Qed.

(** The loop that sums and counts at once. *)
Lemma sum_count_fold (f : Z -> Q) (l : list Z) : forall (s : Q) (c : Z),
  fold_left (fun '(sum, count) j => (sum + f j, (count + 1)%Z)) l (s, c)
  = (fold_left (fun a j => a + f j) l s, (c + len l)%Z).
Proof.
  induction l as [|j l IH]; intros s c; simpl fold_left.
  - unfold len. simpl. now rewrite Z.add_0_r.
  - rewrite IH. f_equal. rewrite len_cons. lia.
Qed.

Lemma len_range (lo hi : Z) : (lo <= hi)%Z -> len (range lo hi) = (hi - lo)%Z.
Proof. intro H. unfold len. rewrite range_length. lia. Qed.

(** The mean of a non-empty range of values between [lo] and [hi]. *)
Lemma mean_bounds (f : Z -> Q) (lo hi : Q) (a b : Z) :
  (a < b)%Z ->
  (forall j, (a <= j < b)%Z -> lo <= f j <= hi) ->
  lo <= forRange a b (fun acc j => acc + f j) 0 / num (b - a) <= hi.
Proof.
  intros Hab Hf. unfold forRange.
  destruct (sum_bounds f lo hi (range a b)) with (acc := 0) as [H1 H2].
  { apply Forall_forall. intros j Hj. apply Hf. now apply in_range. }
  rewrite len_range in H1, H2 by lia.
  assert (Hpos : 0 < num (b - a)).
  { unfold num. rewrite <- (Zlt_Qlt 0). lia. }
  split.
  - apply Qle_shift_div_l; [assumption|]. lra.
  - apply Qle_shift_div_r; [assumption|]. lra.
Qed.

End SumFacts.

(** ** Energy envelope *)

Section EnvelopeFacts.
Import JS EnergyAnalyzer.
Context {M : MathLib} {L : MathLaws M}.

Lemma get_Forall (P : Q -> Prop) (l : list Q) (i : Z) :
  Forall P l -> P 0 -> P (get l i).
Proof.
  intros H H0. unfold get. destruct (i <? 0)%Z; [exact H0|].
  destruct (nth_in_or_default (Z.to_nat i) l 0) as [Hin | ->]; [|exact H0].
  rewrite Forall_forall in H. auto.
Qed.

Lemma Qdiv_nonneg (a b : Q) : 0 <= a -> 0 <= b -> 0 <= a / b.
Proof.
  intros Ha Hb. unfold Qdiv.
  apply Qmult_le_0_compat; [assumption|now apply Qinv_le_0_compat].
Qed.

Lemma Qdiv_zero (a b : Q) : a == 0 -> a / b == 0.
Proof. intro H. rewrite H. unfold Qdiv. ring. Qed.


Lemma calculateRMS_silent samples start end_ :
  Silent samples -> calculateRMS samples start end_ == 0.
Proof.
  intro H. unfold calculateRMS. destruct (_ <=? 0)%Z; [reflexivity|].
  apply sqrt_zero, Qdiv_zero. unfold forRange.
  apply fold_left_invariant; [reflexivity|].
  intros acc i Hacc.
  assert (Hs : get samples i == 0) by (apply get_Forall; [exact H|reflexivity]).
  rewrite Hacc, Hs. ring.
Qed.
















End EnvelopeFacts.

Lemma floorMath_laws : MathLaws floorMath.
Proof.
  split; simpl; unfold floorSqrt; intro x.
  - unfold Qle. simpl. pose proof (Z.sqrt_nonneg (Qnum x * QDen x)). lia.
  - intro H. unfold Qeq in *. simpl in *.
    assert (Qnum x = 0%Z) as -> by lia. reflexivity.
Qed.




(* ================================================================== *)
(** * Part III: further properties of the analysis code *)
(* ================================================================== *)

(** ** Energy analyzer: envelope length, smoothing, averages, changes *)

Section EnergyMoreFacts.
Import JS EnergyAnalyzer.

Lemma smoothEnergyCurve_length (curve : list Q) (windowSize : Z) :
  length (smoothEnergyCurve curve windowSize) = length curve.
Proof.
  unfold smoothEnergyCurve. rewrite length_map, range_length. unfold len. lia.
Qed.

(** X1.  At a positive sample rate the envelope has ceil(10 * duration)
    values, the duration being [length / sampleRate]: one value per
    started tenth of a second. *)
Theorem analyzeEnergy_length {M : MathLib} (audioData : list Q) (sampleRate : Q) :
  0 < sampleRate ->
  len (analyzeEnergy audioData sampleRate)
  = Qceiling (num (len audioData) / sampleRate * 10)
  /\ (0 <= Qceiling (num (len audioData) / sampleRate * 10))%Z.
Proof.
  intro Hsr.
  assert (Hc : (0 <= Qceiling (num (len audioData) / sampleRate * 10))%Z).
  { apply Qceiling_nonneg. apply Qmult_le_0_compat; [|discriminate].
    apply Qdiv_nonneg; [|lra].
    unfold num, len. rewrite <- (Zle_Qle 0). lia. }
  split; [|exact Hc].
  unfold analyzeEnergy, OUTPUT_SAMPLE_RATE.
  change (num 10) with (10 : Q).
  set (raw := map _ (range 0 _)).
  assert (Hraw : length raw = Z.to_nat (Qceiling (num (len audioData) / sampleRate * 10))).
  { unfold raw. rewrite length_map, range_length. f_equal. lia. }
  assert (Hlen : forall l : list Q, length l = length raw ->
                 len l = Qceiling (num (len audioData) / sampleRate * 10)).
  { intros l Hl. unfold len at 1. rewrite Hl, Hraw. now apply Z2Nat.id. }
  destruct (ltb 0 _); apply Hlen.
  - now rewrite length_map, smoothEnergyCurve_length.
  - unfold len. now rewrite zeros_length, Nat2Z.id, smoothEnergyCurve_length.
Qed.

Lemma analyzeEnergy_length_witness :
  len (@analyzeEnergy floorMath (repeat 0.5 9) 20) = 5%Z.
Proof.
  destruct (@analyzeEnergy_length floorMath (repeat 0.5 9) 20) as [H _];
    [reflexivity|].
  rewrite H. reflexivity.
Defined.

(** X2.  Smoothing with a window size that is not negative keeps the
    number of values, and keeps them between any two bounds that hold of
    every value of the curve: each smoothed value is the mean of a
    non-empty window of values. *)
Theorem smoothEnergyCurve_bounds (curve : list Q) (windowSize : Z)
  (lo hi : Q) :
  (0 <= windowSize)%Z ->
  Forall (fun x => lo <= x <= hi) curve ->
  length (smoothEnergyCurve curve windowSize) = length curve /\
  Forall (fun x => lo <= x <= hi) (smoothEnergyCurve curve windowSize).
Proof.
  intros Hw H. split; [apply smoothEnergyCurve_length|].
  unfold smoothEnergyCurve. apply Forall_map, Forall_forall.
  intros i Hi. apply in_range in Hi.
  assert (Hh : (0 <= windowSize / 2)%Z) by (apply Z.div_pos; lia).
  set (a := Z.max 0 (i - windowSize / 2)).
  set (b := Z.min (len curve) (i + windowSize / 2 + 1)).
  unfold forRange. rewrite (sum_count_fold (get curve)).
  rewrite len_range by (unfold a, b; lia).
  replace (0 + (b - a))%Z with (b - a)%Z by lia.
  apply (mean_bounds (get curve) lo hi a b); [unfold a, b; lia|].
  intros j Hj. apply get_Forall_in; [exact H|unfold a, b in Hj; lia].
Qed.

Lemma smoothEnergyCurve_bounds_witness :
  Forall (fun x => 0 <= x <= 1)
         (smoothEnergyCurve [0.2; 1; 0; 0.6] 5).
Proof.
  apply (smoothEnergyCurve_bounds [0.2; 1; 0; 0.6] 5 0 1).
  - discriminate.
  - repeat constructor; discriminate.
Defined.

(** From a start time that is not negative the average reads the
    envelope inside its bounds, and is their mean or 0. *)
Lemma getAverageEnergy_range (lo hi : Q) (energyCurve : list Q)
  (startTime endTime : Q) :
  lo <= 0 -> 0 <= hi ->
  Forall (fun v => lo <= v <= hi) energyCurve ->
  0 <= startTime ->
  lo <= getAverageEnergy energyCurve startTime endTime <= hi.
Proof.
  intros Hlo Hhi H Hs. unfold getAverageEnergy, OUTPUT_SAMPLE_RATE.
  change (num 10) with (10 : Q).
  set (a := Qfloor (startTime * 10)).
  set (b := Z.min (Qceiling (endTime * 10)) (len energyCurve)).
  destruct (a >=? b)%Z eqn:E; [split; assumption|].
  rewrite Z.geb_leb in E. apply Z.leb_gt in E.
  assert (Ha : (0 <= a)%Z).
  { unfold a. rewrite <- (Qfloor_Z 0). apply Qfloor_resp_le.
    unfold inject_Z. lra. }
  apply (mean_bounds (get energyCurve) lo hi a b); [lia|].
  intros j Hj. apply get_Forall_in; [exact H|unfold b in Hj; lia].
Qed.

(** X3.  From a start time that is not negative, the average of an
    envelope whose values lie in [0,1] lies in [0,1]. *)
Theorem getAverageEnergy_bounds (energyCurve : list Q) (startTime endTime : Q) :
  Forall (fun v => 0 <= v <= 1) energyCurve ->
  0 <= startTime ->
  0 <= getAverageEnergy energyCurve startTime endTime <= 1.
Proof.
  intros H Hs.
  apply getAverageEnergy_range; [apply Qle_refl|discriminate|exact H|exact Hs].
Qed.

Lemma getAverageEnergy_bounds_witness :
  0 <= getAverageEnergy [0.2; 1; 0; 0.6] 0.1 0.35 <= 1.
Proof.
  apply getAverageEnergy_bounds.
  - repeat constructor; discriminate.
  - discriminate.
Defined.

End EnergyMoreFacts.

(** ** Energy changes *)

Section EnergyChangeFacts.
Import JS EnergyAnalyzer.

Lemma Spaced_map_snoc {A : Type} (f : A -> Q) gap init y x :
  Spaced gap (map f (init ++ [y])) -> f y < f x -> gap <= f x - f y ->
  Spaced gap (map f ((init ++ [y]) ++ [x])).
Proof.
  intros H Hlt Hgap. rewrite !map_app in *. simpl map in *.
  induction (map f init) as [|h t IH]; simpl in *.
  - tauto.
  - destruct H as [Hhd Htl]. split; [|auto].
    destruct t; simpl in *; exact Hhd.
Qed.

(** X4.  The energy-change events are reported in increasing time order
    and at least one second apart; each one carries a change of at least
    the threshold, and lies at least one second after the start and more
    than one second before the end of the envelope. *)
Theorem detectEnergyChanges_events (energyCurve : list Q) (threshold : Q) :
  Spaced 1 (map time (detectEnergyChanges energyCurve threshold)) /\
  Forall (fun c => threshold <= Qabs (delta c) /\
                   1 <= time c /\ time c + 1 < num (len energyCurve) / 10)
         (detectEnergyChanges energyCurve threshold).
Proof.
  unfold detectEnergyChanges, forRange, OUTPUT_SAMPLE_RATE.
  apply fold_left_invariant_In; [split; [exact I|constructor]|].
  intros changes i Hi [Hsp Hall]. apply in_range in Hi.
  destruct (fold_left _ (range 0 10) (0, 0)) as [beforeSum afterSum].
  set (d := afterSum / num 10 - beforeSum / num 10).
  destruct (leb threshold (Qabs d)) eqn:Eth; [|now split].
  apply leb_le in Eth.
  assert (Hnew : threshold <= Qabs d /\ 1 <= num i / num 10 /\
                 num i / num 10 + 1 < num (len energyCurve) / 10).
  { split; [exact Eth|].
    assert (H1 : inject_Z 10 <= inject_Z i) by (rewrite <- Zle_Qle; lia).
    assert (H2 : inject_Z (i + 10) < inject_Z (len energyCurve))
      by (rewrite <- Zlt_Qlt; lia).
    rewrite inject_Z_plus in H2. unfold num.
    change (inject_Z 10) with 10%Q in *. split.
    - apply Qle_shift_div_l; [reflexivity|lra].
    - apply Qlt_shift_div_l; [reflexivity|].
      assert (E : (inject_Z i / 10 + 1) * 10 == inject_Z i + 10) by field.
      rewrite E. exact H2. }
  destruct (lastOpt changes) as [lastChange|] eqn:El.
  - destruct (leb 1 (num i / num 10 - time lastChange)) eqn:E1; [|now split].
    apply leb_le in E1. apply lastOpt_some in El. destruct El as [init ->].
    split.
    + apply Spaced_map_snoc; [exact Hsp|simpl; lra|exact E1].
    + apply Forall_app. split; [exact Hall|]. constructor; [exact Hnew|constructor].
  - apply lastOpt_nil in El. subst. split.
    + simpl. auto.
    + constructor; [exact Hnew|constructor].
Qed.

(** X5.  On a flat envelope, all of whose values are equal, no energy
    change is reported for any positive threshold: the means of the second
    before and of the second after any point are equal. *)
Theorem detectEnergyChanges_flat (energyCurve : list Q) (c threshold : Q) :
  0 < threshold ->
  Forall (fun v => v == c) energyCurve ->
  detectEnergyChanges energyCurve threshold = [].
Proof.
  intros Hth Hflat.
  unfold detectEnergyChanges, forRange, OUTPUT_SAMPLE_RATE.
  apply fold_left_invariant_In; [reflexivity|].
  intros changes i Hi ->. apply in_range in Hi.
  destruct (fold_left _ (range 0 10) (0, 0)) as [beforeSum afterSum] eqn:E.
  assert (Heq : beforeSum == afterSum).
  { change (fst (beforeSum, afterSum) == snd (beforeSum, afterSum)).
    rewrite <- E.
    apply fold_left_invariant_In; [reflexivity|].
    intros [b a] j Hj Hba. apply in_range in Hj. simpl in *.
    assert (H1 : get energyCurve (i - 10 + j) == c)
      by (apply get_Forall_in; [exact Hflat|lia]).
    assert (H2 : get energyCurve (i + j) == c)
      by (apply get_Forall_in; [exact Hflat|lia]).
    rewrite Hba, H1, H2. reflexivity. }
  assert (Hd : Qabs (afterSum / num 10 - beforeSum / num 10) == 0).
  { rewrite Heq. setoid_replace (afterSum / num 10 - afterSum / num 10) with 0
      by ring. reflexivity. }
  destruct (leb threshold _) eqn:El; [|reflexivity].
  apply leb_le in El. rewrite Hd in El. lra.
Qed.

Lemma detectEnergyChanges_flat_witness :
  detectEnergyChanges (repeat 0.4 40) 0.15 = [].
Proof.
  apply (detectEnergyChanges_flat (repeat 0.4 40) 0.4 0.15).
  - reflexivity.
  - apply Forall_forall. intros x Hx. apply repeat_spec in Hx. now subst.
Defined.

End EnergyChangeFacts.

(** ** Section analyzer: classification and merging *)

Section SectionMoreFacts.
Import JS EnergyAnalyzer SectionAnalyzer.

(** X6.  What each label of [classifySection] means: the conditions on the
    energy, the position in the track and the energy change under which the
    label is returned.  In particular an energy of 0.7 or more always gives
    'drop' or 'chorus', and 'verse', 'breakdown' and 'unknown' are only given
    to sections that start at second 15 or later and end at least 15 seconds
    before the end of the track. *)
Theorem classifySection_table (energy startTime endTime totalDuration energyChange : Q) :
  match classifySection energy startTime endTime totalDuration energyChange with
  | intro => startTime < 15 /\ energy < 0.7
  | outro => 15 <= startTime /\ totalDuration - 15 < endTime /\ energy < 0.7
  | drop => 0.7 <= energy /\ 0.25 < energyChange
  | chorus => 0.7 <= energy /\ energyChange <= 0.25
  | verse =>
      15 <= startTime /\ endTime <= totalDuration - 15 /\
      0.4 <= energy /\ energy < 0.7
  | breakdown =>
      15 <= startTime /\ endTime <= totalDuration - 15 /\
      energy < 0.4 /\ energyChange < -0.2
  | unknown =>
      15 <= startTime /\ endTime <= totalDuration - 15 /\
      energy < 0.4 /\ -0.2 <= energyChange
  end.
Proof.
  unfold classifySection, EDGE_SECTION_THRESHOLD, ENERGY_HIGH, ENERGY_MEDIUM.
  destruct (ltb startTime 15) eqn:E1; destruct (ltb energy 0.7) eqn:E2;
    destruct (ltb (totalDuration - 15) endTime) eqn:E3;
    destruct (leb 0.7 energy) eqn:E4;
    destruct (ltb 0.25 energyChange) eqn:E5;
    destruct (leb 0.4 energy) eqn:E6;
    destruct (ltb energyChange (-0.2)) eqn:E7;
    simpl;
    repeat match goal with
           | H : ltb _ _ = true |- _ => apply ltb_lt in H
           | H : ltb _ _ = false |- _ => apply ltb_ge in H
           | H : leb _ _ = true |- _ => apply leb_le in H
           | H : leb _ _ = false |- _ => apply leb_gt in H
           end;
    repeat split; lra.
Qed.

(** A list without equal adjacent types is left as it is by the merge. *)
Lemma mergeLoop_alternating_id rest : forall current merged,
  Alternating (current :: rest) ->
  mergeLoop rest current merged = merged ++ current :: rest.
Proof.
  induction rest as [|next rest' IH]; intros current merged H; simpl.
  - reflexivity.
  - destruct H as [Hne Htl].
    destruct (SectionType_eqb (type next) (type current)) eqn:E.
    + apply SectionType_eqb_eq in E. congruence.
    + rewrite IH by exact Htl. now rewrite <- app_assoc.
Qed.

(** X7.  Merging is idempotent: a list already free of equal adjacent types
    is returned unchanged, so that merging a merged list changes nothing. *)
Theorem mergeSections_idempotent (sections : list MusicSection) :
  (Alternating sections -> mergeSections sections = sections) /\
  mergeSections (mergeSections sections) = mergeSections sections.
Proof.
  assert (Hid : forall l, Alternating l -> mergeSections l = l).
  { intros [|s [|s' t]] H; try reflexivity.
    unfold mergeSections. now rewrite mergeLoop_alternating_id. }
  split; [apply Hid|]. apply Hid, mergeSections_alternating.
Qed.

Lemma mergeSections_idempotent_witness :
  mergeSections
    [{| type := verse; startTime := 0; endTime := 8; energy := 0.5 |};
     {| type := chorus; startTime := 8; endTime := 16; energy := 0.8 |}]
  = [{| type := verse; startTime := 0; endTime := 8; energy := 0.5 |};
     {| type := chorus; startTime := 8; endTime := 16; energy := 0.8 |}].
Proof.
  apply mergeSections_idempotent. simpl. repeat split; discriminate.
Defined.

Lemma mergeLoop_energy (lo hi : Q) rest : forall current merged,
  Forall (fun s => lo <= energy s <= hi) (merged ++ current :: rest) ->
  Forall (fun s => lo <= energy s <= hi) (mergeLoop rest current merged).
Proof.
  induction rest as [|next rest' IH]; intros current merged H; simpl.
  - exact H.
  - apply Forall_app in H. destruct H as [Hm Hc].
    inversion Hc as [|? ? Hcur Hrest]; subst.
    inversion Hrest as [|? ? Hnext Hrest']; subst.
    destruct (SectionType_eqb (type next) (type current)).
    + apply IH. apply Forall_app. split; [assumption|].
      constructor; [|assumption]. simpl.
      split; [apply Qle_shift_div_l|apply Qle_shift_div_r]; try reflexivity; lra.
    + apply IH. rewrite <- app_assoc. apply Forall_app. split; [assumption|].
      constructor; assumption.
Qed.

(** X8.  Merging keeps the energies between any two bounds that hold of
    the energies of the sections merged: the running two-term average of
    values in [lo, hi] stays in [lo, hi]. *)
Theorem mergeSections_energy (lo hi : Q) (sections : list MusicSection) :
  Forall (fun s => lo <= energy s <= hi) sections ->
  Forall (fun s => lo <= energy s <= hi) (mergeSections sections).
Proof.
  intro H. destruct sections as [|s [|s' t]]; try exact H.
  unfold mergeSections. now apply mergeLoop_energy.
Qed.

Lemma mergeSections_energy_witness :
  Forall (fun s => 0 <= energy s <= 1)
    (mergeSections
       [{| type := verse; startTime := 0; endTime := 8; energy := 0.5 |};
        {| type := verse; startTime := 8; endTime := 16; energy := 0.6 |};
        {| type := chorus; startTime := 16; endTime := 24; energy := 1 |}]).
Proof.
  apply mergeSections_energy. repeat constructor; discriminate.
Defined.

End SectionMoreFacts.

(** ** Section analyzer: snapping and boundaries *)

Section BoundaryFacts.
Import JS EnergyAnalyzer SectionAnalyzer.

Lemma Qabs_cases (x : Q) :
  (0 <= x /\ Qabs x == x) \/ (x <= 0 /\ Qabs x == - x).
Proof.
  destruct (Qlt_le_dec x 0) as [H|H].
  - right. split; [lra|]. apply Qabs_neg. lra.
  - left. split; [assumption|]. now apply Qabs_pos.
Qed.

Lemma snapLoop_spec (time : Q) (bars : list Q) : forall nearest,
  StronglySorted Qle bars ->
  let r := snapLoop time bars nearest (Qabs (time - nearest)) in
  (r = nearest \/ In r bars) /\
  Qabs (time - r) <= Qabs (time - nearest) /\
  (forall b, In b bars -> Qabs (time - r) <= Qabs (time - b)).
Proof.
  induction bars as [|b bs IH]; intros nearest Hs; cbv zeta; cbn [snapLoop].
  - split; [now left|]. split; [apply Qle_refl|]. intros b [].
  - inversion Hs as [|? ? Hs' Hall]; subst.
    rewrite Forall_forall in Hall.
    destruct (ltb (Qabs (time - b)) (Qabs (time - nearest))) eqn:E.
    + apply ltb_lt in E.
      destruct (ltb (time + 2) b) eqn:Eb.
      * apply ltb_lt in Eb. split; [right; now left|]. split; [lra|].
        intros b' [<-|Hb']; [apply Qle_refl|].
        specialize (Hall b' Hb').
        destruct (Qabs_cases (time - b)) as [[? Ha]|[? Ha]];
          destruct (Qabs_cases (time - b')) as [[? Hb]|[? Hb]]; lra.
      * destruct (IH b Hs') as (H1 & H2 & H3).
        split; [right; destruct H1 as [->|H1]; [now left|now right]|].
        split; [lra|].
        intros b' [<-|Hb']; [exact H2|now apply H3].
    + apply ltb_ge in E.
      destruct (ltb (time + 2) b) eqn:Eb.
      * apply ltb_lt in Eb. split; [now left|]. split; [apply Qle_refl|].
        intros b' [<-|Hb']; [exact E|].
        specialize (Hall b' Hb').
        destruct (Qabs_cases (time - b)) as [[? Ha]|[? Ha]];
          destruct (Qabs_cases (time - b')) as [[? Hb]|[? Hb]]; lra.
      * destruct (IH nearest Hs') as (H1 & H2 & H3).
        split; [destruct H1 as [->|H1]; [now left|right; now right]|].
        split; [exact H2|].
        intros b' [<-|Hb']; [lra|now apply H3].
Qed.

(** X9.  When the bar times are in ascending order, [snapToNearestBar]
    returns one of them, and none of them is closer to the given time: the
    early exit of the scan, once a bar lies more than 2 s past the time,
    loses nothing.  Without bars the time itself is returned. *)
Theorem snapToNearestBar_nearest (time : Q) (barTimes : list Q) :
  Sorted Qle barTimes ->
  (barTimes = [] -> snapToNearestBar time barTimes = time) /\
  (barTimes <> [] -> In (snapToNearestBar time barTimes) barTimes) /\
  (forall b, In b barTimes ->
             Qabs (time - snapToNearestBar time barTimes) <= Qabs (time - b)).
Proof.
  intro Hs. apply Sorted_StronglySorted in Hs;
    [|intros x y z; apply Qle_trans].
  destruct barTimes as [|bar0 bars]; [repeat split; [congruence|intros b []]|].
  unfold snapToNearestBar.
  destruct (snapLoop_spec time (bar0 :: bars) bar0 Hs) as (H1 & H2 & H3).
  split; [discriminate|]. split; [|exact H3].
  intros _. destruct H1 as [->|H1]; [now left|exact H1].
Qed.

Lemma snapToNearestBar_nearest_witness :
  In (snapToNearestBar 5.2 [0; 2; 4; 6; 8; 10]) [0; 2; 4; 6; 8; 10] /\
  Qabs (5.2 - snapToNearestBar 5.2 [0; 2; 4; 6; 8; 10]) <= Qabs (5.2 - 4).
Proof.
  destruct (snapToNearestBar_nearest 5.2 [0; 2; 4; 6; 8; 10]) as (_ & H1 & H2).
  - repeat constructor; discriminate.
  - split; [apply H1; discriminate|apply H2; simpl; tauto].
Defined.

(** *** The boundaries are never negative *)

Lemma last_Forall (P : Q -> Prop) (l : list Q) :
  Forall P l -> P 0 -> P (last l 0).
Proof.
  intros H H0. induction H as [|x l Hx Hl IH]; [exact H0|].
  destruct l; [exact Hx|exact IH].
Qed.

Lemma removelast_Forall (P : Q -> Prop) (l : list Q) :
  Forall P l -> Forall P (removelast l).
Proof.
  induction 1 as [|x l Hx Hl IH]; simpl; [constructor|].
  destruct l; [constructor|]. constructor; assumption.
Qed.

Lemma changeBoundaries_nonneg changes barTimes :
  Forall (fun b => 0 <= b) (changeBoundaries changes barTimes).
Proof.
  unfold changeBoundaries.
  apply fold_left_invariant; [repeat constructor; discriminate|].
  intros bs c H.
  destruct (leb _ _) eqn:E; [|exact H].
  apply leb_le in E. unfold MIN_SECTION_DURATION, lastBoundary in E.
  assert (0 <= last bs 0) by (apply last_Forall; [exact H|apply Qle_refl]).
  apply Forall_app. split; [exact H|]. constructor; [lra|constructor].
Qed.

Lemma closeBoundaries_nonneg bs d :
  0 <= d -> Forall (fun b => 0 <= b) bs ->
  Forall (fun b => 0 <= b) (closeBoundaries bs d).
Proof.
  intros Hd H. unfold closeBoundaries.
  assert (Hd' : Forall (fun b => 0 <= b) [d]) by (constructor; auto).
  destruct (leb _ _); [apply Forall_app; now split|].
  destruct (1 <? len bs)%Z; apply Forall_app; split;
    auto using removelast_Forall.
Qed.

Lemma barBoundaries_nonneg bs barTimes :
  Forall (fun b => 0 <= b) bs ->
  Forall (fun b => 0 <= b) (barBoundaries bs barTimes).
Proof.
  intro H. unfold barBoundaries.
  destruct (_ && _); [|exact H].
  apply sortNumbers_Forall.
  apply fold_left_invariant; [exact H|].
  intros acc i Hacc. cbv zeta.
  destruct (_ && _) eqn:E; [|exact Hacc].
  apply andb_prop in E. destruct E as [E _]. apply ltb_lt in E.
  unfold MIN_SECTION_DURATION in E.
  assert (0 <= get acc 0) by (apply get_Forall; [exact Hacc|apply Qle_refl]).
  apply Forall_app. split; [exact Hacc|]. constructor; [lra|constructor].
Qed.

(** X10.  For a positive duration and an envelope whose values lie in
    [0,1], the energy of every section returned by [analyzeSections] lies
    in [0,1]. *)
Theorem analyzeSections_energy (energyCurve barTimes : list Q) (d : Q) :
  0 < d ->
  Forall (fun v => 0 <= v <= 1) energyCurve ->
  Forall (fun s => 0 <= energy s <= 1) (analyzeSections energyCurve barTimes d).
Proof.
  intros Hd Henv. unfold analyzeSections.
  destruct (len energyCurve =? 0)%Z.
  - constructor; [simpl; split; discriminate|constructor].
  - set (bs := barBoundaries _ barTimes).
    assert (Hbs : Forall (fun b => 0 <= b) bs).
    { apply barBoundaries_nonneg, closeBoundaries_nonneg; [lra|].
      apply changeBoundaries_nonneg. }
    assert (Hs : Forall (fun s => 0 <= energy s <= 1)
                   (map (sectionAt energyCurve bs d) (range 0 (len bs - 1)))).
    { apply Forall_map, Forall_forall. intros i _. unfold sectionAt. simpl.
      apply getAverageEnergy_range;
        [apply Qle_refl|discriminate|exact Henv|].
      apply get_Forall; [exact Hbs|apply Qle_refl]. }
    destruct (map _ _) as [|s [|s' t]]; try exact Hs.
    unfold mergeSections. now apply mergeLoop_energy.
Qed.

Lemma analyzeSections_energy_witness :
  Forall (fun s => 0 <= energy s <= 1)
    (analyzeSections (repeat 0.1 100 ++ repeat 0.9 100 ++ repeat 0.1 100)
                     [0; 2; 4; 6; 8; 10; 12; 14; 16; 18; 20; 22; 24; 26; 28; 30]
                     30).
Proof.
  apply analyzeSections_energy; [reflexivity|].
  repeat (apply Forall_app; split);
    apply Forall_forall; intros x Hx; apply repeat_spec in Hx; subst;
    split; discriminate.
Defined.

End BoundaryFacts.

(** ** Section analyzer: the single-section case and the phrase boundaries *)

Section PhraseFacts.
Import JS EnergyAnalyzer SectionAnalyzer.

Lemma rangeStep_empty (lo hi step : Z) :
  (0 < step)%Z -> (hi <= lo)%Z -> rangeStep lo hi step = [].
Proof.
  intros Hs H. unfold rangeStep.
  replace (Z.to_nat ((hi - lo + step - 1) / step)) with 0%nat; [reflexivity|].
  assert ((hi - lo + step - 1) / step < 1)%Z
    by (apply Z.div_lt_upper_bound; lia).
  lia.
Qed.

Lemma in_rangeStep (lo hi step i : Z) :
  (0 < step)%Z -> In i (rangeStep lo hi step) ->
  exists k : Z, (0 <= k)%Z /\ i = (lo + k * step)%Z /\ (i < hi)%Z.
Proof.
  intros Hs Hin. unfold rangeStep in Hin. apply in_map_iff in Hin.
  destruct Hin as (k & <- & Hk). apply in_seq in Hk.
  exists (Z.of_nat k). split; [lia|]. split; [reflexivity|].
  assert (Hc : (Z.of_nat k + 1 <= (hi - lo + step - 1) / step)%Z) by lia.
  pose proof (Z.mul_div_le (hi - lo + step - 1) step Hs). nia.
Qed.

(** X11.  When the envelope is not empty, shows no energy change at
    threshold 0.15 and at most 8 bars are supplied, [analyzeSections] returns
    a single section spanning the whole track, from 0 to the (positive)
    duration, whose energy is the average of the envelope over the track and
    whose type is the classification of that energy with no energy change. *)
Theorem analyzeSections_single (energyCurve barTimes : list Q) (d : Q) :
  0 < d -> energyCurve <> [] ->
  detectEnergyChanges energyCurve 0.15 = [] ->
  (len barTimes <= 8)%Z ->
  analyzeSections energyCurve barTimes d
  = [{| type := classifySection (getAverageEnergy energyCurve 0 d) 0 d d
                  (getAverageEnergy energyCurve 0 d
                   - getAverageEnergy energyCurve 0 d);
        startTime := 0;
        endTime := d;
        energy := getAverageEnergy energyCurve 0 d |}].
Proof.
  intros Hd Hne Hch Hbars. unfold analyzeSections.
  destruct (len energyCurve =? 0)%Z eqn:E.
  { apply Z.eqb_eq in E. destruct energyCurve; [congruence|].
    rewrite len_cons in E. unfold len in E. lia. }
  rewrite Hch.
  assert (Hclose : closeBoundaries (changeBoundaries [] barTimes) d = [0; d]).
  { unfold changeBoundaries, closeBoundaries. simpl fold_left.
    destruct (leb _ _); reflexivity. }
  rewrite Hclose.
  assert (Hbar : barBoundaries [0; d] barTimes = [0; d]).
  { unfold barBoundaries. destruct (_ && _); [|reflexivity].
    cbv zeta. rewrite rangeStep_empty by lia. simpl.
    assert (leb 0 d = true) as -> by (apply leb_le; lra). reflexivity. }
  rewrite Hbar. reflexivity.
Qed.

Lemma analyzeSections_single_witness :
  analyzeSections (repeat 0.8 30) [0; 2; 4] 3
  = [{| type := classifySection (getAverageEnergy (repeat 0.8 30) 0 3) 0 3 3
                  (getAverageEnergy (repeat 0.8 30) 0 3
                   - getAverageEnergy (repeat 0.8 30) 0 3);
        startTime := 0;
        endTime := 3;
        energy := getAverageEnergy (repeat 0.8 30) 0 3 |}].
Proof.
  apply analyzeSections_single.
  - reflexivity.
  - discriminate.
  - vm_compute. reflexivity.
  - vm_compute. discriminate.
Defined.

(** *** The ascending sort *)

Lemma insertSorted_In (x y : Q) (l : list Q) :
  In x (insertSorted y l) <-> x = y \/ In x l.
Proof.
  induction l as [|h t IH]; simpl.
  - intuition.
  - destruct (leb y h); simpl; [intuition|]. rewrite IH. intuition.
Qed.

Lemma sortNumbers_In (x : Q) (l : list Q) : In x (sortNumbers l) <-> In x l.
Proof.
  induction l as [|h t IH]; simpl; [reflexivity|].
  rewrite insertSorted_In, IH. intuition.
Qed.

Lemma insertSorted_Sorted (x : Q) (l : list Q) :
  Sorted Qle l -> Sorted Qle (insertSorted x l).
Proof.
  induction 1 as [|h t Ht IH Hhd]; simpl.
  - repeat constructor.
  - destruct (leb x h) eqn:E.
    + apply leb_le in E. repeat constructor; assumption.
    + apply leb_gt in E. constructor; [exact IH|].
      destruct t as [|h' t']; simpl.
      * constructor. lra.
      * inversion Hhd; subst. destruct (leb x h'); constructor; [lra|assumption].
Qed.

Lemma sortNumbers_Sorted (l : list Q) : Sorted Qle (sortNumbers l).
Proof.
  induction l as [|h t IH]; simpl; [constructor|].
  now apply insertSorted_Sorted.
Qed.

(** *** The two loops of [detectPhraseBoundaries] *)

Lemma existsb_false {A : Type} (f : A -> bool) (l : list A) :
  existsb f l = false -> forall x, In x l -> f x = false.
Proof.
  induction l as [|h t IH]; simpl; intros H x Hx; [contradiction|].
  apply orb_false_elim in H. destruct H as [Hh Ht].
  destruct Hx as [<-|Hx]; auto.
Qed.

(** The loop over the sections: it only appends section starts, and leaves
    every section start in the list, up to equality of numbers. *)
Lemma sectionStarts_spec (sections : list MusicSection) : forall acc,
  let r :=
    fold_left
      (fun phrases section =>
         if existsb (Qeq_bool section.(startTime)) phrases then phrases
         else phrases ++ [section.(startTime)])
      sections acc in
  (forall p, In p acc -> In p r) /\
  (forall s, In s sections -> exists p, In p r /\ p == startTime s) /\
  (forall p, In p r ->
             In p acc \/ exists s, In s sections /\ p = startTime s).
Proof.
  induction sections as [|s rest IH]; intro acc; cbv zeta; cbn [fold_left].
  - repeat split; [auto|intros s []|auto].
  - set (acc' := if existsb _ acc then acc else acc ++ [startTime s]).
    destruct (IH acc') as (H1 & H2 & H3).
    assert (Hsub : forall p, In p acc -> In p acc').
    { intros p Hp. unfold acc'. destruct (existsb _ acc); [exact Hp|].
      apply in_or_app. now left. }
    assert (Hs : exists p, In p acc' /\ p == startTime s).
    { unfold acc'. destruct (existsb _ acc) eqn:E.
      - apply existsb_exists in E. destruct E as (p & Hp & Hq).
        apply Qeq_bool_iff in Hq. exists p. split; [exact Hp|now symmetry].
      - exists (startTime s). split; [|reflexivity].
        apply in_or_app. right. now left. }
    split; [auto|]. split.
    + intros s' [<-|Hs']; [|auto].
      destruct Hs as (p & Hp & Hq). exists p. auto.
    + intros p Hp. destruct (H3 p Hp) as [Hin|(s' & Hs' & ->)].
      * unfold acc' in Hin. destruct (existsb _ acc); [now left|].
        apply in_app_or in Hin. destruct Hin as [Hin|[<-|[]]]; [now left|].
        right. exists s. split; [now left|reflexivity].
      * right. exists s'. split; [now right|reflexivity].
Qed.

(** The loop over every 4th bar: it only appends bar times, each one at
    least 2 s away from everything already in the list. *)
Lemma phraseBars_spec (barTimes : list Q) (idxs : list Z) : forall acc,
  let r :=
    fold_left
      (fun phrases i =>
         let barTime := get barTimes i in
         let minDistance := 2.0 in
         let tooClose :=
           existsb (fun p => ltb (Qabs (p - barTime)) minDistance) phrases in
         if negb tooClose then phrases ++ [barTime] else phrases)
      idxs acc in
  (forall p, In p acc -> In p r) /\
  (forall p, In p r ->
             In p acc \/ exists i, In i idxs /\ p = get barTimes i) /\
  (forall P : Q -> Prop,
      (forall x y, In x acc -> In y acc -> Qabs (x - y) < 2 ->
                   x == y \/ (P x /\ P y)) ->
      forall x y, In x r -> In y r -> Qabs (x - y) < 2 ->
                  x == y \/ (P x /\ P y)).
Proof.
  induction idxs as [|i rest IH]; intro acc; cbv zeta; cbn [fold_left].
  - repeat split; auto.
  - set (b := get barTimes i).
    set (acc' := if negb (existsb _ acc) then acc ++ [b] else acc).
    destruct (IH acc') as (H1 & H2 & H3).
    assert (Hsub : forall p, In p acc -> In p acc').
    { intros p Hp. unfold acc'. destruct (negb _); [|exact Hp].
      apply in_or_app. now left. }
    split; [auto|]. split.
    + intros p Hp. destruct (H2 p Hp) as [Hin|(j & Hj & ->)].
      * unfold acc' in Hin. destruct (negb _); [|now left].
        apply in_app_or in Hin. destruct Hin as [Hin|[<-|[]]]; [now left|].
        right. exists i. split; [now left|reflexivity].
      * right. exists j. split; [now right|reflexivity].
    + intros P HP. apply H3. unfold acc'.
      destruct (existsb _ acc) eqn:E; simpl negb; cbv iota; [exact HP|].
      assert (Hfar : forall p, In p acc -> 2 <= Qabs (p - b)).
      { intros p Hp. apply (existsb_false _ _ E) in Hp. cbv beta in Hp.
        apply ltb_ge in Hp. fold b in Hp. lra. }
      intros x y Hx Hy Hxy.
      apply in_app_or in Hx. apply in_app_or in Hy.
      destruct Hx as [Hx|[<-|[]]]; destruct Hy as [Hy|[<-|[]]].
      * now apply HP.
      * specialize (Hfar x Hx). lra.
      * specialize (Hfar y Hy). rewrite Qabs_Qminus in Hxy. lra.
      * left. reflexivity.
Qed.

(** X12.  The phrase boundaries are returned in ascending order; every
    section start is among them (as a number); and each of them is a section
    start or the time of a bar whose index is a multiple of 4. *)
Theorem detectPhraseBoundaries_sorted (barTimes : list Q)
  (sections : list MusicSection) :
  Sorted Qle (detectPhraseBoundaries barTimes sections) /\
  (forall s, In s sections ->
             exists p, In p (detectPhraseBoundaries barTimes sections) /\
                       p == startTime s) /\
  (forall p, In p (detectPhraseBoundaries barTimes sections) ->
             isSectionStart sections p \/
             exists k : Z, (0 <= k)%Z /\ (4 * k < len barTimes)%Z /\
                           p = get barTimes (4 * k)).
Proof.
  unfold detectPhraseBoundaries. cbv zeta.
  destruct (sectionStarts_spec sections []) as (_ & S2 & S3).
  set (starts := fold_left _ sections []) in *.
  destruct (phraseBars_spec barTimes (rangeStep 0 (len barTimes) 4) starts)
    as (B1 & B2 & _).
  cbv zeta in B1, B2.
  set (phrases := fold_left _ (rangeStep 0 (len barTimes) 4) starts) in *.
  split; [apply sortNumbers_Sorted|]. split.
  - intros s Hs. destruct (S2 s Hs) as (p & Hp & Hq).
    exists p. split; [|exact Hq]. apply sortNumbers_In. auto.
  - intros p Hp. apply (proj1 (sortNumbers_In _ _)) in Hp.
    destruct (B2 p Hp) as [Hin|(i & Hi & ->)].
    + left. destruct (S3 p Hin) as [[]|H]. exact H.
    + right. apply in_rangeStep in Hi; [|lia].
      destruct Hi as (k & Hk & -> & Hlt).
      exists k. replace (0 + k * 4)%Z with (4 * k)%Z in * by lia. auto.
Qed.

(** X13.  Minimum spacing of the phrase boundaries: two boundaries less
    than 2 s apart are the same time or are both section starts; a bar time
    is never added within 2 s of another boundary. *)
Theorem detectPhraseBoundaries_spacing (barTimes : list Q)
  (sections : list MusicSection) (x y : Q) :
  In x (detectPhraseBoundaries barTimes sections) ->
  In y (detectPhraseBoundaries barTimes sections) ->
  Qabs (x - y) < 2 ->
  x == y \/ (isSectionStart sections x /\ isSectionStart sections y).
Proof.
  unfold detectPhraseBoundaries. cbv zeta.
  destruct (sectionStarts_spec sections []) as (_ & _ & S3).
  set (starts := fold_left _ sections []) in *.
  destruct (phraseBars_spec barTimes (rangeStep 0 (len barTimes) 4) starts)
    as (_ & _ & B3).
  cbv zeta in B3.
  set (phrases := fold_left _ (rangeStep 0 (len barTimes) 4) starts) in *.
  intros Hx Hy Hxy.
  apply (proj1 (sortNumbers_In _ _)) in Hx.
  apply (proj1 (sortNumbers_In _ _)) in Hy.
  apply (B3 (isSectionStart sections)); try assumption.
  intros a b Ha Hb _. right.
  destruct (S3 a Ha) as [[]|Ha']. destruct (S3 b Hb) as [[]|Hb'].
  split; assumption.
Qed.

Lemma detectPhraseBoundaries_spacing_witness :
  0 == 1 \/
  (isSectionStart [{| type := intro; startTime := 0; endTime := 1; energy := 0.3 |};
                   {| type := verse; startTime := 1; endTime := 30; energy := 0.5 |}] 0 /\
   isSectionStart [{| type := intro; startTime := 0; endTime := 1; energy := 0.3 |};
                   {| type := verse; startTime := 1; endTime := 30; energy := 0.5 |}] 1).
Proof.
  apply (detectPhraseBoundaries_spacing
           [0; 2; 4; 6; 8; 10; 12; 14; 16]
           [{| type := intro; startTime := 0; endTime := 1; energy := 0.3 |};
            {| type := verse; startTime := 1; endTime := 30; energy := 0.5 |}]).
  - vm_compute. tauto.
  - vm_compute. tauto.
  - reflexivity.
Defined.

End PhraseFacts.

(** ** The consumers of an analysis *)

Section ServiceFacts.
Import JS EnergyAnalyzer SectionAnalyzer BeatDetectionService.

(** The sections of an analysis run end to end from 0 to the duration. *)
Lemma analyzeSections_path (energyCurve barTimes : list Q) (d : Q) :
  0 < d -> Path 0 (analyzeSections energyCurve barTimes d) d.
Proof.
  intro Hd. unfold analyzeSections.
  destruct (len energyCurve =? 0)%Z.
  - apply (Path_one {| type := unknown; startTime := 0; endTime := d;
                       energy := 0.5 |}).
  - destruct (boundaries_shape (detectEnergyChanges energyCurve 0.15) barTimes d Hd)
      as [mid ->].
    apply mergeSections_path.
    set (bs := 0 :: mid ++ [d]).
    assert (Hlen : (len bs - 1 = 0 + Z.of_nat (S (length mid)))%Z)
      by (unfold bs; rewrite len_shape; lia).
    assert (Hp := sections_path energyCurve bs d (S (length mid)) 0).
    rewrite <- Hlen in Hp.
    replace (get bs (len bs - 1)) with d in Hp; [exact Hp|].
    replace (len bs - 1)%Z with (len (0 :: mid))
      by (unfold bs; rewrite len_shape, len_cons; unfold len; lia).
    symmetry. apply (get_snoc (0 :: mid) d).
Qed.

(** Along sections laid end to end, every time from the start up to the
    end falls in one of them. *)
Lemma Path_covers a l e (t : Q) :
  Path a l e -> a <= t -> t < e ->
  exists s, getSectionAtTime t l = Some s /\ In s l /\
            startTime s <= t /\ t < endTime s.
Proof.
  unfold getSectionAtTime.
  induction 1 as [a|s l e H IH]; intros Ha He; [lra|]. simpl.
  destruct (ltb t (endTime s)) eqn:E.
  - apply ltb_lt in E.
    assert (leb (startTime s) t = true) as -> by now apply leb_le.
    exists s. simpl. auto.
  - apply ltb_ge in E. rewrite andb_false_r.
    destruct (IH E He) as (s' & Hf & Hin & Hb). exists s'. auto.
Qed.

(** X14.  Every time of the track has a section: for a positive duration
    d and 0 <= t < d, [getSectionAtTime] finds, among the sections returned
    by [analyzeSections], one that contains t, and never returns null. *)
Theorem getSectionAtTime_total (energyCurve barTimes : list Q) (d t : Q) :
  0 < d -> 0 <= t -> t < d ->
  exists s,
    getSectionAtTime t (analyzeSections energyCurve barTimes d) = Some s /\
    In s (analyzeSections energyCurve barTimes d) /\
    startTime s <= t /\ t < endTime s.
Proof.
  intros Hd H0 Ht.
  apply (Path_covers 0 _ d); [now apply analyzeSections_path|exact H0|exact Ht].
Qed.

Lemma getSectionAtTime_total_witness :
  exists s,
    getSectionAtTime 12.5
      (analyzeSections (repeat 0.1 100 ++ repeat 0.9 100 ++ repeat 0.1 100)
                       [0; 2; 4; 6; 8; 10; 12; 14; 16; 18; 20; 22; 24; 26; 28; 30]
                       30) = Some s /\
    In s (analyzeSections (repeat 0.1 100 ++ repeat 0.9 100 ++ repeat 0.1 100)
                          [0; 2; 4; 6; 8; 10; 12; 14; 16; 18; 20; 22; 24; 26; 28; 30]
                          30) /\
    startTime s <= 12.5 /\ 12.5 < endTime s.
Proof. apply getSectionAtTime_total; reflexivity || discriminate. Defined.

(** The scan for the nearest time keeps the closest value seen so far. *)
Lemma nearestTo_spec (time : Q) (others : list Q) : forall first,
  (nearestTo time first others = first \/ In (nearestTo time first others) others) /\
  Qabs (nearestTo time first others - time) <= Qabs (first - time) /\
  (forall b, In b others ->
             Qabs (nearestTo time first others - time) <= Qabs (b - time)).
Proof.
  unfold nearestTo.
  induction others as [|b bs IH]; intro first; cbn [fold_left].
  - split; [now left|]. split; [apply Qle_refl|intros b []].
  - destruct (ltb (Qabs (b - time)) (Qabs (first - time))) eqn:E.
    + apply ltb_lt in E. destruct (IH b) as (H1 & H2 & H3).
      split; [right; destruct H1 as [->|H1]; [now left|now right]|].
      split; [lra|]. intros b' [<-|Hb']; [exact H2|now apply H3].
    + apply ltb_ge in E. destruct (IH first) as (H1 & H2 & H3).
      split; [destruct H1 as [->|H1]; [now left|right; now right]|].
      split; [exact H2|]. intros b' [<-|Hb']; [lra|now apply H3].
Qed.

(** X15.  [findNearestBeat] returns one of the beat times, and no beat
    time is closer to the given time; without beats it returns the time
    itself. *)
Theorem findNearestBeat_nearest (time : Q) (beatTimes : list Q) :
  (beatTimes = [] -> findNearestBeat time beatTimes = time) /\
  (beatTimes <> [] -> In (findNearestBeat time beatTimes) beatTimes) /\
  (forall b, In b beatTimes ->
             Qabs (findNearestBeat time beatTimes - time) <= Qabs (b - time)).
Proof.
  destruct beatTimes as [|first others];
    [repeat split; [congruence|intros b []]|].
  unfold findNearestBeat.
  destruct (nearestTo_spec time others first) as (H1 & H2 & H3).
  split; [discriminate|]. split.
  - intros _. destruct H1 as [->|H1]; [now left|now right].
  - intros b [<-|Hb]; [exact H2|now apply H3].
Qed.

Lemma findNearestBeat_nearest_witness :
  In (findNearestBeat 1.3 [0; 0.5; 1.0; 1.5; 2.0]) [0; 0.5; 1.0; 1.5; 2.0] /\
  Qabs (findNearestBeat 1.3 [0; 0.5; 1.0; 1.5; 2.0] - 1.3) <= Qabs (1.0 - 1.3).
Proof.
  destruct (findNearestBeat_nearest 1.3 [0; 0.5; 1.0; 1.5; 2.0]) as (_ & H1 & H2).
  split; [apply H1; discriminate|apply H2; simpl; tauto].
Defined.

(** X16.  [findNearestSnare] returns a snare time only if it is the
    closest one to the given time and lies within [maxDistance] of it, and
    returns null exactly when every snare time is farther than
    [maxDistance] away (in particular when there is none). *)
Theorem findNearestSnare_spec (time : Q) (drumPattern : DrumAnalyzer.DrumPattern)
  (maxDistance : Q) :
  match findNearestSnare time drumPattern maxDistance with
  | Some s =>
      In s (DrumAnalyzer.snareTimes drumPattern) /\
      Qabs (s - time) <= maxDistance /\
      (forall b, In b (DrumAnalyzer.snareTimes drumPattern) ->
                 Qabs (s - time) <= Qabs (b - time))
  | None =>
      forall b, In b (DrumAnalyzer.snareTimes drumPattern) ->
                maxDistance < Qabs (b - time)
  end.
Proof.
  unfold findNearestSnare.
  destruct (DrumAnalyzer.snareTimes drumPattern) as [|first others];
    [intros b []|].
  destruct (nearestTo_spec time others first) as (H1 & H2 & H3).
  assert (Hall : forall b, In b (first :: others) ->
                           Qabs (nearestTo time first others - time)
                           <= Qabs (b - time)).
  { intros b [<-|Hb]; [exact H2|now apply H3]. }
  destruct (leb _ maxDistance) eqn:E.
  - apply leb_le in E. split; [|split; assumption].
    destruct H1 as [->|H1]; [now left|now right].
  - apply leb_gt in E. intros b Hb. specialize (Hall b Hb). lra.
Qed.

(** X17.  The mono mix of a buffer with two or more channels of equal
    length has the length of the channels, and each of its samples lies
    between any two bounds that hold of the samples of both channels; a
    buffer with a single channel is returned as it is. *)
Theorem toMono_bounds (left right : list Q) (rest : list (list Q)) (lo hi : Q) :
  length right = length left ->
  Forall (fun x => lo <= x <= hi) left ->
  Forall (fun x => lo <= x <= hi) right ->
  toMono [left] = left /\
  length (toMono (left :: right :: rest)) = length left /\
  Forall (fun x => lo <= x <= hi) (toMono (left :: right :: rest)).
Proof.
  intros Hlen Hl Hr. split; [reflexivity|].
  unfold toMono.
  assert ((len (left :: right :: rest) =? 1)%Z = false) as ->.
  { apply Z.eqb_neq. rewrite !len_cons. unfold len. lia. }
  cbn [nth]. split.
  - rewrite length_map, range_length. unfold len. lia.
  - apply Forall_map, Forall_forall. intros i Hi. apply in_range in Hi.
    assert (H1 : lo <= get left i <= hi)
      by (apply get_Forall_in; [exact Hl|lia]).
    assert (H2 : lo <= get right i <= hi)
      by (apply get_Forall_in; [exact Hr|unfold len in *; lia]).
    split; [apply Qle_shift_div_l|apply Qle_shift_div_r]; try reflexivity; lra.
Qed.

Lemma toMono_bounds_witness :
  toMono [[0.5; -1]] = [0.5; -1] /\
  length (toMono [[0.5; -1]; [1; -0.5]]) = 2%nat /\
  Forall (fun x => -1 <= x <= 1) (toMono [[0.5; -1]; [1; -0.5]]).
Proof.
  apply (toMono_bounds [0.5; -1] [1; -0.5] [] (-1) 1).
  - reflexivity.
  - repeat constructor; discriminate.
  - repeat constructor; discriminate.
Defined.

End ServiceFacts.

(** ** Beat worker: tempo and bars *)

Section TempoFacts.
Import JS BeatWorker DrumAnalyzer BeatDetectionService.

Lemma range_shift (lo hi : Z) :
  range (lo + 1) (hi + 1) = map (fun j => (j + 1)%Z) (range lo hi).
Proof.
  unfold range. replace (hi + 1 - (lo + 1))%Z with (hi - lo)%Z by lia.
  rewrite map_map. apply map_ext. intro k. lia.
Qed.

(** The intervals collected by the tempo loop are the differences of
    consecutive beats. *)
Lemma tempo_intervals (beats : list Q) :
  map (fun i => get beats i - get beats (i - 1)) (range 1 (len beats))
  = beatIntervals beats.
Proof.
  induction beats as [|a t IH]; [reflexivity|].
  destruct t as [|b t']; [reflexivity|].
  rewrite len_cons, range_cons by (rewrite len_cons; unfold len; lia).
  cbn [map]. change (beatIntervals (a :: b :: t'))
    with ((b - a) :: beatIntervals (b :: t')).
  f_equal. rewrite <- IH.
  change (1 + 1)%Z with (1 + 1)%Z. rewrite range_shift, map_map.
  apply map_ext_in. intros j Hj. apply in_range in Hj.
  rewrite get_cons_succ by lia.
  replace (j + 1 - 1)%Z with (j - 1 + 1)%Z by lia.
  rewrite get_cons_succ by lia. reflexivity.
Qed.

Lemma fold_left_Qplus (l : list Q) : forall a,
  fold_left Qplus l a == a + fold_right Qplus 0 l.
Proof.
  induction l as [|x l IH]; intro a; simpl.
  - ring.
  - rewrite IH. ring.
Qed.

Lemma tempoOf_mean (beats : list Q) :
  (2 <= len beats)%Z -> tempoOf beats == 60 / meanBeatInterval beats.
Proof.
  intro H. unfold tempoOf, meanBeatInterval.
  destruct (2 <=? len beats)%Z eqn:E; [|apply Z.leb_gt in E; lia].
  rewrite tempo_intervals, fold_left_Qplus. unfold num, len.
  setoid_replace (0 + fold_right Qplus 0 (beatIntervals beats))
    with (fold_right Qplus 0 (beatIntervals beats)) by ring.
  reflexivity.
Qed.

Lemma meanBeatInterval_first_last (beats : list Q) :
  (2 <= len beats)%Z ->
  meanBeatInterval beats
  == (get beats (len beats - 1) - get beats 0) / num (len beats - 1).
Proof.
  intro H. unfold meanBeatInterval.
  destruct beats as [|a l]; [unfold len in H; simpl in H; lia|].
  rewrite get_last, beatIntervals_sum, beatIntervals_length.
  change (get (a :: l) 0) with a.
  rewrite len_cons. unfold num, len.
  replace (Z.of_nat (length l) + 1 - 1)%Z with (Z.of_nat (length l)) by lia.
  reflexivity.
Qed.

Lemma num_pos (z : Z) : (0 < z)%Z -> 0 < num z.
Proof. intro H. unfold num. now rewrite <- (Zlt_Qlt 0). Qed.

(** X18.  With at least two beats, the first of them before the last,
    the tempo is 60 (n - 1) / (last - first) for n beats: it is positive and
    depends only on the number of beats and on the first and the last one. *)
Theorem tempoOf_first_last (beats : list Q) :
  (2 <= len beats)%Z ->
  get beats 0 < get beats (len beats - 1) ->
  tempoOf beats
  == 60 * num (len beats - 1) / (get beats (len beats - 1) - get beats 0)
  /\ 0 < tempoOf beats.
Proof.
  intros Hn Hlt.
  assert (Hpos : 0 < num (len beats - 1)) by (apply num_pos; lia).
  assert (E : tempoOf beats
              == 60 * num (len beats - 1)
                 / (get beats (len beats - 1) - get beats 0)).
  { rewrite tempoOf_mean, meanBeatInterval_first_last by assumption.
    field. split; lra. }
  split; [exact E|]. rewrite E.
  apply Qlt_shift_div_l; lra.
Qed.

Lemma tempoOf_first_last_witness :
  tempoOf [0; 0.4; 1.1; 1.5] == 60 * num 3 / (1.5 - 0)
  /\ 0 < tempoOf [0; 0.4; 1.1; 1.5].
Proof.
  apply (tempoOf_first_last [0; 0.4; 1.1; 1.5]).
  - discriminate.
  - reflexivity.
Defined.

(** X19.  The pattern length estimated by [analyzeDrums] agrees with the
    tempo computed by the worker: with at least two beats, the first before
    the last, it is the uniform clip duration of 4 bars at that tempo, and
    pattern length times tempo is 960 (16 beats of 60 / tempo seconds). *)
Theorem patternLength_four_bars (beats : list Q) :
  (2 <= len beats)%Z ->
  get beats 0 < get beats (len beats - 1) ->
  estimatePatternLength beats
  == calculateUniformClipDuration (tempoOf beats) 4 /\
  estimatePatternLength beats * tempoOf beats == 960.
Proof.
  intros Hn Hlt.
  assert (Hpos : 0 < num (len beats - 1)) by (apply num_pos; lia).
  assert (Et : tempoOf beats
               == 60 * num (len beats - 1)
                  / (get beats (len beats - 1) - get beats 0)).
  { rewrite tempoOf_mean, meanBeatInterval_first_last by assumption.
    field. split; lra. }
  assert (Ep : estimatePatternLength beats
               == (get beats (len beats - 1) - get beats 0)
                  / num (len beats - 1) * 16).
  { unfold estimatePatternLength.
    destruct (2 <=? len beats)%Z eqn:E; [reflexivity|].
    apply Z.leb_gt in E. lia. }
  unfold calculateUniformClipDuration. rewrite Ep, Et.
  split; field; split; lra.
Qed.

Lemma patternLength_four_bars_witness :
  estimatePatternLength [0; 0.4; 1.1; 1.5]
  == calculateUniformClipDuration (tempoOf [0; 0.4; 1.1; 1.5]) 4 /\
  estimatePatternLength [0; 0.4; 1.1; 1.5] * tempoOf [0; 0.4; 1.1; 1.5] == 960.
Proof.
  apply (patternLength_four_bars [0; 0.4; 1.1; 1.5]).
  - discriminate.
  - reflexivity.
Defined.

End TempoFacts.

(** ** Beat worker: bars, strengths and downbeats *)

Section DownbeatFacts.
Import JS BeatWorker.

Lemma get_map_range (g : Z -> Q) (step : Z) (m : nat) (k : Z) :
  (0 <= k < Z.of_nat m)%Z ->
  get (map g (map (fun j => (0 + Z.of_nat j * step)%Z) (seq 0 m))) k
  = g (k * step)%Z.
Proof.
  intro H. unfold get.
  destruct (k <? 0)%Z eqn:E; [apply Z.ltb_lt in E; lia|].
  rewrite map_map.
  rewrite (nth_indep _ 0 (g (0 + Z.of_nat 0 * step)%Z))
    by (rewrite length_map, length_seq; lia).
  rewrite (map_nth (fun j => g (0 + Z.of_nat j * step)%Z)).
  rewrite seq_nth by lia. f_equal.
  replace (Z.of_nat (0 + Z.to_nat k)) with k by lia. ring.
Qed.

Lemma barCount_bound (n k : Z) :
  (0 <= k)%Z -> (4 * k < n)%Z -> (k < (n - 0 + 4 - 1) / 4)%Z.
Proof.
  intros Hk H.
  assert (k + 1 <= (n - 0 + 4 - 1) / 4)%Z
    by (apply Z.div_le_lower_bound; lia).
  lia.
Qed.

Lemma barTimesOf_get (beats : list Q) (k : Z) :
  (0 <= k)%Z -> (4 * k < len beats)%Z ->
  get (barTimesOf beats) k = get beats (4 * k).
Proof.
  intros Hk H. unfold barTimesOf, rangeStep.
  rewrite get_map_range.
  - f_equal. lia.
  - pose proof (barCount_bound (len beats) k Hk H).
    assert (0 <= (len beats - 0 + 4 - 1) / 4)%Z by (apply Z.div_pos; lia).
    lia.
Qed.

(** X20.  The bar times are the beat times at the indices 0, 4, 8, ...:
    there are ceil(n / 4) of them for n beats, the k-th one is the beat of
    index 4 k, and every bar time is a beat time. *)
Theorem barTimesOf_spec (beats : list Q) :
  len (barTimesOf beats) = ((len beats + 3) / 4)%Z /\
  (forall k, (0 <= k)%Z -> (4 * k < len beats)%Z ->
             get (barTimesOf beats) k = get beats (4 * k)) /\
  (forall b, In b (barTimesOf beats) -> In b beats).
Proof.
  split; [|split].
  - unfold barTimesOf, rangeStep, len at 1.
    rewrite !length_map, length_seq.
    replace (len beats - 0 + 4 - 1)%Z with (len beats + 3)%Z by lia.
    apply Z2Nat.id. apply Z.div_pos; unfold len; lia.
  - apply barTimesOf_get.
  - intros b Hb. unfold barTimesOf in Hb. apply in_map_iff in Hb.
    destruct Hb as (i & <- & Hi). apply in_rangeStep in Hi; [|lia].
    destruct Hi as (k & Hk & -> & Hlt). apply get_In. lia.
Qed.

(** *** Downbeats *)

Lemma range_StronglySorted (n : nat) : forall lo : Z,
  StronglySorted Z.lt (map (fun k => (lo + Z.of_nat k)%Z) (seq 0 n)).
Proof.
  induction n as [|n IH]; intro lo; simpl; [constructor|].
  constructor.
  - rewrite <- seq_shift, map_map.
    replace (map (fun x => (lo + Z.of_nat (S x))%Z) (seq 0 n))
      with (map (fun k => (lo + 1 + Z.of_nat k)%Z) (seq 0 n))
      by (apply map_ext; intro; lia).
    apply IH.
  - apply Forall_forall. intros x Hx. apply in_map_iff in Hx.
    destruct Hx as (k & <- & Hk). apply in_seq in Hk. lia.
Qed.

Lemma filter_StronglySorted {A : Type} (R : A -> A -> Prop) (f : A -> bool)
  (l : list A) :
  StronglySorted R l -> StronglySorted R (filter f l).
Proof.
  induction 1 as [|x l Hl IH Hx]; simpl; [constructor|].
  destruct (f x); [|exact IH]. constructor; [exact IH|].
  rewrite Forall_forall in *. intros y Hy. apply filter_In in Hy. now apply Hx.
Qed.

Lemma filter_all {A : Type} (f : A -> bool) (l : list A) :
  (forall x, In x l -> f x = true) -> filter f l = l.
Proof.
  induction l as [|x l IH]; intro H; simpl; [reflexivity|].
  rewrite (H x) by now left. f_equal. apply IH. intros y Hy. apply H. now right.
Qed.

Section WithMath.
Context {M : MathLib}.

(** The downbeat indices: a subsequence of 0 .. n - 1 that holds every
    multiple of 4. *)
Lemma downbeatIndices_spec (beats strengths : list Q) :
  (forall i, (0 <= i < len strengths)%Z -> (i mod 4 = 0)%Z ->
             In i (downbeatIndices (detectDownbeats beats strengths))) /\
  (forall i, In i (downbeatIndices (detectDownbeats beats strengths)) ->
             (0 <= i < len strengths)%Z) /\
  StronglySorted Z.lt (downbeatIndices (detectDownbeats beats strengths)).
Proof.
  unfold detectDownbeats.
  destruct (len strengths =? 0)%Z eqn:E; simpl.
  - apply Z.eqb_eq in E. split; [intros i Hi; lia|].
    split; [intros i []|constructor].
  - split; [|split].
    + intros i Hi Hmod. apply filter_In. split; [apply in_range; lia|].
      apply Z.eqb_eq in Hmod. rewrite Hmod. apply orb_true_r.
    + intros i Hi. apply filter_In in Hi. destruct Hi as [Hi _].
      now apply in_range in Hi.
    + apply filter_StronglySorted, range_StronglySorted.
Qed.

Lemma downbeatTimes_spec (beats strengths : list Q) :
  (len strengths <= len beats)%Z ->
  downbeatTimes (detectDownbeats beats strengths)
  = map (get beats) (downbeatIndices (detectDownbeats beats strengths)).
Proof.
  intro H. destruct (downbeatIndices_spec beats strengths) as (_ & Hin & _).
  revert Hin. unfold detectDownbeats.
  destruct (len strengths =? 0)%Z; simpl; [reflexivity|].
  intro Hin. f_equal. apply filter_all. intros i Hi.
  apply Z.ltb_lt. specialize (Hin i Hi). lia.
Qed.

(** X21.  Every beat whose index is a multiple of 4 is a downbeat,
    whatever the strengths; the downbeat indices are strictly increasing
    and lie in 0 .. n - 1 for n strengths; and when there are at least as
    many beat times as strengths, the downbeat times are the beat times at
    the downbeat indices. *)
Theorem detectDownbeats_spec (beats strengths : list Q) :
  (forall i, (0 <= i < len strengths)%Z -> (i mod 4 = 0)%Z ->
             In i (downbeatIndices (detectDownbeats beats strengths))) /\
  (forall i, In i (downbeatIndices (detectDownbeats beats strengths)) ->
             (0 <= i < len strengths)%Z) /\
  StronglySorted Z.lt (downbeatIndices (detectDownbeats beats strengths)) /\
  ((len strengths <= len beats)%Z ->
   downbeatTimes (detectDownbeats beats strengths)
   = map (get beats) (downbeatIndices (detectDownbeats beats strengths))).
Proof.
  destruct (downbeatIndices_spec beats strengths) as (H1 & H2 & H3).
  repeat split; try assumption.
  - now apply H2 in H.
  - now apply H2 in H.
  - apply downbeatTimes_spec.
Qed.

End WithMath.

End DownbeatFacts.

(** ** Beat worker: uniform strengths, normalised strengths, bars as downbeats *)

Section StrengthFacts.
Import JS BeatWorker.
Context {M : MathLib}.

Lemma calculateBeatStrengths_length (audioData beats : list Q) (sampleRate : Q) :
  length (calculateBeatStrengths audioData beats sampleRate) = length beats.
Proof.
  unfold calculateBeatStrengths.
  set (raw := map _ beats).
  assert (Hraw : length raw = length beats) by (unfold raw; apply length_map).
  destruct raw as [|first others] eqn:E; [exact Hraw|].
  destruct (Qeq_bool _ 0); rewrite length_map; exact Hraw.
Qed.

(** X22.  Every bar time is a downbeat time: in the pipeline, where the
    downbeats are detected from the strengths computed for the same beats,
    each bar time (a beat of index 0, 4, 8, ...) is among the downbeat
    times, whatever the audio. *)
Theorem barTimes_are_downbeats (audioData beats : list Q) (sampleRate : Q) :
  forall b,
    In b (barTimesOf beats) ->
    In b (downbeatTimes
            (detectDownbeats beats
               (calculateBeatStrengths audioData beats sampleRate))).
Proof.
  intros b Hb.
  set (strengths := calculateBeatStrengths audioData beats sampleRate).
  assert (Hlen : len strengths = len beats).
  { unfold len, strengths. now rewrite calculateBeatStrengths_length. }
  rewrite downbeatTimes_spec by lia.
  unfold barTimesOf in Hb. apply in_map_iff in Hb.
  destruct Hb as (i & <- & Hi). apply in_rangeStep in Hi; [|lia].
  destruct Hi as (k & Hk & -> & Hlt).
  apply in_map.
  destruct (downbeatIndices_spec beats strengths) as (H1 & _).
  apply H1; [lia|].
  replace (0 + k * 4)%Z with (k * 4)%Z by lia. apply Z.mod_mul. lia.
Qed.

Context {L : MathLaws M}.

Lemma fold_left_Qplus_const (c : Q) (l : list Q) :
  Forall (fun x => x == c) l ->
  forall a, fold_left Qplus l a == a + c * num (len l).
Proof.
  induction 1 as [|x l Hx Hl IH]; intro a; simpl fold_left.
  - unfold num, len. simpl. ring.
  - rewrite IH, num_len_cons, Hx. ring.
Qed.

Lemma fold_left_squares_zero (c : Q) (l : list Q) :
  Forall (fun x => x == c) l ->
  forall a, a == 0 ->
            fold_left (fun sum s => sum + (s - c) ^ 2) l a == 0.
Proof.
  induction 1 as [|x l Hx Hl IH]; intros a Ha; simpl fold_left.
  - exact Ha.
  - apply IH. rewrite Ha, Hx. simpl. ring.
Qed.

(** When all the beats have the same strength, the downbeats are exactly
    the beats whose index is a multiple of 4: the standard deviation is 0
    and no strength exceeds the threshold. *)
Lemma detectDownbeats_uniform (beats strengths : list Q) (c : Q) :
  Forall (fun s => s == c) strengths ->
  forall i,
    In i (downbeatIndices (detectDownbeats beats strengths)) <->
    (0 <= i < len strengths)%Z /\ (i mod 4 = 0)%Z.
Proof.
  intros Hc i.
  destruct (downbeatIndices_spec beats strengths) as (H1 & H2 & _).
  split; [|intros [Hi Hm]; now apply H1].
  intro Hin. split; [now apply H2|].
  revert Hin. unfold detectDownbeats.
  destruct (len strengths =? 0)%Z eqn:E; simpl; [intros []|].
  apply Z.eqb_neq in E. intro Hin. apply filter_In in Hin.
  destruct Hin as [Hr Hf]. apply in_range in Hr.
  apply orb_prop in Hf. destruct Hf as [Hs|Hm]; [|now apply Z.eqb_eq].
  exfalso. apply ltb_lt in Hs.
  assert (Hn : 0 < num (len strengths)) by (apply num_pos; lia).
  set (mean := fold_left Qplus strengths 0 / num (len strengths)) in *.
  assert (Hmean : mean == c).
  { unfold mean. rewrite (fold_left_Qplus_const c) by assumption.
    field. lra. }
  assert (Hstd : Math_sqrt
                   (fold_left (fun sum s => sum + (s - mean) ^ 2) strengths 0
                    / num (len strengths)) == 0).
  { apply sqrt_zero, Qdiv_zero.
    apply (fold_left_squares_zero mean); [|reflexivity].
    eapply Forall_impl; [|exact Hc]. simpl. intros s Hs'.
    rewrite Hs', Hmean. reflexivity. }
  assert (Hg : get strengths i == c) by (apply get_Forall_in; assumption).
  rewrite Hstd, Hmean, Hg in Hs. lra.
Qed.

(** On silent audio every raw strength is 0, and so is every strength. *)
Lemma calculateBeatStrengths_silent (audioData beats : list Q) (sampleRate : Q) :
  Silent audioData ->
  Silent (calculateBeatStrengths audioData beats sampleRate).
Proof.
  intro Hs. unfold calculateBeatStrengths.
  set (raw := map _ beats).
  assert (Hraw : Silent raw).
  { apply Forall_map, Forall_forall. intros t _.
    destruct (beatWindow _ t sampleRate) as [start end_].
    apply sqrt_zero, Qdiv_zero. unfold forRange.
    apply fold_left_invariant; [reflexivity|].
    intros acc i Hacc.
    assert (Hg : get audioData i == 0)
      by (apply get_Forall; [exact Hs|reflexivity]).
    rewrite Hacc, Hg. ring. }
  destruct raw as [|first others]; [constructor|].
  destruct (Qeq_bool _ 0).
  - apply Forall_map, Forall_forall. intros x _. reflexivity.
  - apply Forall_map. eapply Forall_impl; [|exact Hraw].
    simpl. intros x Hx. now apply Qdiv_zero.
Qed.

(** X23.  On silent audio the downbeats are exactly every 4th beat: when
    all samples are 0 and every beat has a positive RMS divisor, the
    strengths computed by [calculateBeatStrengths], one per beat, are all 0,
    and the downbeat indices detected from them are exactly the indices
    0, 4, 8, ... below the number of beats. *)
Theorem silent_downbeats (audioData beats : list Q) (sampleRate : Q) :
  Silent audioData ->
  Forall (fun t => (0 < rmsDivisor (len audioData) t sampleRate)%Z) beats ->
  Silent (calculateBeatStrengths audioData beats sampleRate) /\
  length (calculateBeatStrengths audioData beats sampleRate) = length beats /\
  forall i,
    In i (downbeatIndices
            (detectDownbeats beats
               (calculateBeatStrengths audioData beats sampleRate))) <->
    (0 <= i < len beats)%Z /\ (i mod 4 = 0)%Z.
Proof.
  intros Hs _.
  split; [now apply calculateBeatStrengths_silent|].
  split; [apply calculateBeatStrengths_length|].
  intro i.
  rewrite (detectDownbeats_uniform beats _ 0)
    by now apply calculateBeatStrengths_silent.
  unfold len. now rewrite calculateBeatStrengths_length.
Qed.

(** The greatest of the raw strengths. *)
Lemma maxSpread_spec (others : list Q) : forall first,
  first <= maxSpread first others /\
  Forall (fun x => x <= maxSpread first others) others.
Proof.
  unfold maxSpread.
  induction others as [|x l IH]; intro first; simpl.
  - split; [apply Qle_refl|constructor].
  - destruct (ltb first x) eqn:E.
    + apply ltb_lt in E. destruct (IH x) as [H1 H2].
      split; [lra|]. constructor; assumption.
    + apply ltb_ge in E. destruct (IH first) as [H1 H2].
      split; [exact H1|]. constructor; [lra|assumption].
Qed.

(** X24.  When every beat has a positive RMS divisor (its window holds at
    least one sample of the audio; the quotient of the code is NaN
    otherwise), [calculateBeatStrengths] returns one strength per beat, each
    in [0,1]. *)
Theorem calculateBeatStrengths_normalized (audioData beats : list Q)
  (sampleRate : Q) :
  Forall (fun t => (0 < rmsDivisor (len audioData) t sampleRate)%Z) beats ->
  length (calculateBeatStrengths audioData beats sampleRate) = length beats /\
  Forall (fun s => 0 <= s <= 1)
         (calculateBeatStrengths audioData beats sampleRate).
Proof.
  intros _. split; [apply calculateBeatStrengths_length|].
  unfold calculateBeatStrengths.
  set (raw := map _ beats).
  assert (Hraw : Forall (fun x => 0 <= x) raw).
  { apply Forall_map, Forall_forall. intros t _.
    destruct (beatWindow _ t sampleRate). apply sqrt_nonneg. }
  destruct raw as [|first others]; [constructor|].
  destruct (maxSpread_spec others first) as [H1 H2].
  inversion Hraw as [|? ? Hf Ho]; subst.
  destruct (Qeq_bool (maxSpread first others) 0) eqn:E.
  - apply Forall_map, Forall_forall. intros x _. split; discriminate.
  - apply Qeq_bool_neq in E.
    assert (Hpos : 0 < maxSpread first others).
    { apply Qle_lteq in Hf. apply Qle_lteq in H1.
      destruct Hf as [Hf|Hf]; [lra|].
      destruct H1 as [H1|H1]; [lra|].
      exfalso. apply E. rewrite <- H1, <- Hf. reflexivity. }
    apply Forall_map.
    assert (Hall : Forall (fun x => 0 <= x /\ x <= maxSpread first others)
                          (first :: others)).
    { constructor; [split; assumption|].
      rewrite Forall_forall in *. intros x Hx. split; auto. }
    eapply Forall_impl; [|exact Hall]. simpl. intros x [Hx0 Hx1].
    split; [apply Qle_shift_div_l|apply Qle_shift_div_r]; lra.
Qed.

End StrengthFacts.

Lemma calculateBeatStrengths_normalized_witness :
  length (@BeatWorker.calculateBeatStrengths floorMath [0.5; 1; 0.25; 0]
            [0; 0.5] 2) = 2%nat /\
  Forall (fun s => 0 <= s <= 1)
         (@BeatWorker.calculateBeatStrengths floorMath [0.5; 1; 0.25; 0]
            [0; 0.5] 2).
Proof.
  apply (@calculateBeatStrengths_normalized floorMath floorMath_laws).
  repeat constructor.
Defined.

(** ** Spectral engine and onsets: further properties *)

Section SpectrumGuardFacts.
Import JS DrumAnalyzer.
Context {M : MathLib}.

(** X25.  The guard of the transform on a non-empty frame (of less than
    2^31 samples): when the length N is a power of two the transform returns
    floor(N / 2) magnitudes, and otherwise it throws, with the length in its
    message. *)
Theorem computeMagnitudeSpectrum_guard (samples : list Q) :
  (0 < len samples < 2 ^ 31)%Z ->
  (PowerOfTwo (len samples) ->
   exists spectrum,
     computeMagnitudeSpectrum samples = Ok spectrum /\
     length spectrum = (length samples / 2)%nat) /\
  (~ PowerOfTwo (len samples) ->
   computeMagnitudeSpectrum samples
   = Thrown (FFT_REQUIRES_POWER_OF_2 (len samples))).
Proof.
  intro HN. split.
  - intro Hp.
    destruct (computeMagnitudeSpectrum_returns samples (band_power_of_two _ Hp))
      as (sp & E & Hlen).
    exists sp. split; [exact E|]. rewrite Hlen. unfold len.
    change 2%Z with (Z.of_nat 2). rewrite <- Nat2Z.inj_div. apply Nat2Z.id.
  - intro Hnp. apply computeMagnitudeSpectrum_throws.
    now apply band_not_power_of_two.
Qed.

End SpectrumGuardFacts.

Lemma computeMagnitudeSpectrum_guard_witness :
  (exists spectrum,
      @DrumAnalyzer.computeMagnitudeSpectrum floorMath [1; 2; 3; 4]
      = JS.Ok spectrum /\
      length spectrum = (length [1; 2; 3; 4] / 2)%nat) /\
  @DrumAnalyzer.computeMagnitudeSpectrum floorMath [1; 2; 3]
  = JS.Thrown (DrumAnalyzer.FFT_REQUIRES_POWER_OF_2 (JS.len [1; 2; 3])).
Proof.
  split.
  - apply (@computeMagnitudeSpectrum_guard floorMath [1; 2; 3; 4]).
    + split; reflexivity.
    + exists 2%Z. split; [discriminate|reflexivity].
  - apply (@computeMagnitudeSpectrum_guard floorMath [1; 2; 3]).
    + split; reflexivity.
    + intros (k & Hk & E). unfold JS.len in E. simpl in E.
      assert (k < 2)%Z.
      { apply Z.nle_gt. intro H. pose proof (Z.pow_le_mono_r 2 2 k). lia. }
      assert (k = 0 \/ k = 1)%Z as [-> | ->] by lia; discriminate.
Defined.

Section SpectrumMoreFacts.
Import JS DrumAnalyzer.
Context {M : MathLib} {L : MathLaws M}.

Lemma setNat_Silent (a : list Q) (v : Q) : forall i,
  Silent a -> v == 0 -> Silent (setNat a i v).
Proof.
  unfold Silent. induction a as [|h t IH]; intros i H Hv; [constructor|].
  inversion H; subst. destruct i; simpl; constructor; auto.
Qed.

Lemma set_Silent (a : list Q) (i : Z) (v : Q) :
  Silent a -> v == 0 -> Silent (set a i v).
Proof.
  intros H Hv. unfold set. destruct (i <? 0)%Z; auto using setNat_Silent.
Qed.

Lemma get_Silent (a : list Q) (i : Z) : Silent a -> get a i == 0.
Proof. intro H. apply get_Forall; [exact H|reflexivity]. Qed.

Lemma bitReversal_Silent (N bits : Z) (c : Complex) :
  SilentComplex c -> SilentComplex (bitReversal N bits c).
Proof.
  intro H. unfold bitReversal, forRange.
  apply fold_left_invariant; [exact H|].
  intros c' i [Hr Hi]. destruct (i <? _)%Z; [|now split].
  split; simpl; unfold swapCells;
    repeat apply set_Silent; auto using get_Silent.
Qed.

Lemma butterfly_Silent (halfSize : Z) (angleStep : Q) (i : Z) (c : Complex) (j : Z) :
  SilentComplex c -> SilentComplex (butterfly halfSize angleStep i c j).
Proof.
  intros [Hr Hi]. unfold butterfly. cbv zeta.
  assert (Z0 : forall k, get (real c) k == 0) by (intro; now apply get_Silent).
  assert (Z1 : forall k, get (imag c) k == 0) by (intro; now apply get_Silent).
  assert (Hr1 : Silent (set (real c) (i + j + halfSize)
                  (get (real c) (i + j)
                   - (get (real c) (i + j + halfSize) * Math_cos (angleStep * num j)
                      - get (imag c) (i + j + halfSize) * Math_sin (angleStep * num j))))).
  { apply set_Silent; [exact Hr|]. rewrite !Z0, !Z1. ring. }
  assert (Hi1 : Silent (set (imag c) (i + j + halfSize)
                  (get (imag c) (i + j)
                   - (get (real c) (i + j + halfSize) * Math_sin (angleStep * num j)
                      + get (imag c) (i + j + halfSize) * Math_cos (angleStep * num j))))).
  { apply set_Silent; [exact Hi|]. rewrite !Z0, !Z1. ring. }
  split; simpl; (apply set_Silent; [assumption|]).
  - rewrite (get_Silent _ _ Hr1), !Z0, !Z1. ring.
  - rewrite (get_Silent _ _ Hi1), !Z0, !Z1. ring.
Qed.

Lemma fftPass_Silent (N : Z) (c : Complex) (size : Z) :
  SilentComplex c -> SilentComplex (fftPass N c size).
Proof.
  intro H. unfold fftPass. cbv zeta.
  apply fold_left_invariant; [exact H|].
  intros c' i Hc'. unfold forRange.
  apply fold_left_invariant; [exact Hc'|].
  intros c'' j Hc''. now apply butterfly_Silent.
Qed.

(** X26.  An all-zero frame has an all-zero spectrum: for a frame of zeros
    whose length is a power of two, the transform returns half as many
    magnitudes, all of them 0. *)
Theorem computeMagnitudeSpectrum_silent (samples : list Q) :
  PowerOfTwo (len samples) -> Silent samples ->
  exists spectrum,
    computeMagnitudeSpectrum samples = Ok spectrum /\
    length spectrum = (length samples / 2)%nat /\
    Silent spectrum.
Proof.
  intros Hp Hs.
  destruct (computeMagnitudeSpectrum_returns samples (band_power_of_two _ Hp))
    as (sp & E & Hlen).
  exists sp. split; [exact E|]. split.
  - rewrite Hlen. unfold len. change 2%Z with (Z.of_nat 2).
    rewrite <- Nat2Z.inj_div. apply Nat2Z.id.
  - revert E. unfold computeMagnitudeSpectrum.
    rewrite (band_power_of_two _ Hp). simpl negb. cbv iota zeta.
    intro E. injection E as <-.
    set (c2 := fold_left _ (passSizes _) _).
    assert (Hc2 : SilentComplex c2).
    { unfold c2. apply fold_left_invariant.
      - apply bitReversal_Silent. split; [exact Hs|].
        apply Forall_forall. intros x Hx. apply repeat_spec in Hx. now subst.
      - intros c' size Hc'. now apply fftPass_Silent. }
    destruct Hc2 as [Hr Hi]. unfold forRange.
    apply fold_left_invariant.
    + apply Forall_forall. intros x Hx. apply repeat_spec in Hx. now subst.
    + intros s k Hsil. apply set_Silent; [exact Hsil|].
      apply sqrt_zero. rewrite (get_Silent _ k Hr), (get_Silent _ k Hi). ring.
Qed.

End SpectrumMoreFacts.

Lemma computeMagnitudeSpectrum_silent_witness :
  exists spectrum,
    @DrumAnalyzer.computeMagnitudeSpectrum floorMath [0; 0; 0; 0] = JS.Ok spectrum /\
    length spectrum = (length [0; 0; 0; 0] / 2)%nat /\
    Silent spectrum.
Proof.
  apply (@computeMagnitudeSpectrum_silent floorMath floorMath_laws [0; 0; 0; 0]).
  - exists 2%Z. split; [discriminate|reflexivity].
  - repeat constructor.
Defined.

(** ** Drum onsets: where an onset can be *)

Section OnsetFacts.
Import JS DrumAnalyzer.

(** Each onset is the time of a frame past the warm-up, at which the
    energy exceeds the threshold times the local mean and the energy of the
    frame before. *)
Lemma detectOnsets_origin (energy times : list Q) (threshold minInterval : Q) :
  forall t,
    In t (detectOnsets energy times threshold minInterval) ->
    exists i,
      (10 <= i < len energy - 1)%Z /\ t = get times i /\
      get energy (i - 1) < get energy i /\
      threshold * (forRange (i - 10) i (fun m j => m + get energy j) 0 / num 10)
      < get energy i.
Proof.
  unfold detectOnsets. cbv zeta. unfold forRange at 1.
  apply fold_left_invariant_In; [intros t []|].
  intros onsets i Hi H. apply in_range in Hi.
  destruct (ltb _ (get energy i)) eqn:E1; [|exact H].
  destruct (ltb (get energy (i - 1)) (get energy i)) eqn:E2; [|exact H].
  apply ltb_lt in E1, E2. simpl andb. cbv iota.
  assert (Hnew : forall t, In t (onsets ++ [get times i]) ->
                 exists i0, (10 <= i0 < len energy - 1)%Z /\ t = get times i0 /\
                   get energy (i0 - 1) < get energy i0 /\
                   threshold *
                   (forRange (i0 - 10) i0 (fun m j => m + get energy j) 0 / num 10)
                   < get energy i0).
  { intros t Ht. apply in_app_or in Ht. destruct Ht as [Ht|[<-|[]]]; [auto|].
    exists i. auto. }
  destruct (lastOpt onsets); [|exact Hnew].
  destruct (leb _ _); [exact Hnew|exact H].
Qed.

(** X27.  Rising-edge gate of [detectOnsets]: every onset is the time of a
    frame i, 10 <= i < n - 1, whose energy exceeds that of frame i - 1 and
    the threshold times the mean of the 10 frames before; so an energy
    curve that never rises from one frame to the next past the warm-up, or
    one of at most 11 frames, has no onset. *)
Theorem detectOnsets_rising (energy times : list Q) (threshold minInterval : Q) :
  (forall t,
      In t (detectOnsets energy times threshold minInterval) ->
      exists i,
        (10 <= i < len energy - 1)%Z /\ t = get times i /\
        get energy (i - 1) < get energy i /\
        threshold * (forRange (i - 10) i (fun m j => m + get energy j) 0 / num 10)
        < get energy i) /\
  ((forall i, (10 <= i < len energy - 1)%Z ->
              get energy i <= get energy (i - 1)) ->
   detectOnsets energy times threshold minInterval = []).
Proof.
  split; [apply detectOnsets_origin|].
  intro Hflat.
  destruct (detectOnsets energy times threshold minInterval) as [|t l] eqn:E;
    [reflexivity|].
  destruct (detectOnsets_origin energy times threshold minInterval t)
    as (i & Hi & _ & Hrise & _); [rewrite E; now left|].
  specialize (Hflat i Hi). lra.
Qed.

(** *** The arrays filled by the frame loop *)

Lemma get_setNat_same (a : list Q) (v : Q) : forall i : nat,
  (i < length a)%nat -> nth i (setNat a i v) 0 = v.
Proof.
  induction a as [|h t IH]; intros [|i] H; simpl in *; try lia; auto.
  apply IH. lia.
Qed.

Lemma get_setNat_other (a : list Q) (v : Q) : forall i j : nat,
  i <> j -> nth j (setNat a i v) 0 = nth j a 0.
Proof.
  induction a as [|h t IH]; intros [|i] [|j] H; simpl; auto; try congruence.
Qed.

Lemma get_set_same (a : list Q) (i : Z) (v : Q) :
  (0 <= i < len a)%Z -> get (set a i v) i = v.
Proof.
  intro H. unfold get, set, len in *.
  destruct (i <? 0)%Z eqn:E; [apply Z.ltb_lt in E; lia|].
  apply get_setNat_same. lia.
Qed.

Lemma get_set_other (a : list Q) (i j : Z) (v : Q) :
  i <> j -> get (set a i v) j = get a j.
Proof.
  intro H. unfold get, set.
  destruct (i <? 0)%Z eqn:Ei; [reflexivity|].
  destruct (j <? 0)%Z eqn:Ej; [reflexivity|].
  apply Z.ltb_ge in Ei, Ej. apply get_setNat_other. lia.
Qed.

Context {M : MathLib}.

(** After the frame loop the cell of every frame visited holds the centre
    time of the frame, and the arrays have kept their lengths. *)
Lemma frameLoop_times (audioData : list Q) (sampleRate : Q) (window : list Q)
  (frames : list Z) : forall arrays ffts a n,
  frameLoop audioData sampleRate window frames arrays ffts = (Ok a, n) ->
  (length (kickEnergy a) = length (kickEnergy arrays) /\
   length (snareEnergy a) = length (snareEnergy arrays) /\
   length (hihatEnergy a) = length (hihatEnergy arrays) /\
   length (frameTimes a) = length (frameTimes arrays)) /\
  (forall f, (0 <= f < len (frameTimes arrays))%Z ->
             (In f frames ->
              get (frameTimes a) f
              = num (f * HOP_SIZE + FFT_SIZE / 2) / sampleRate) /\
             (~ In f frames -> get (frameTimes a) f = get (frameTimes arrays) f)).
Proof.
  induction frames as [|frame frames IH]; intros arrays ffts a n H;
    cbn [frameLoop] in H.
  - injection H as <- <-. split; [auto|]. intros f Hf. split; [intros []|auto].
  - cbv zeta in H.
    destruct (computeMagnitudeSpectrum _) as [spectrum|m]; [|discriminate].
    apply IH in H. cbn [kickEnergy snareEnergy hihatEnergy frameTimes] in H.
    rewrite !set_length in H. destruct H as [Hlen Hget].
    split; [exact Hlen|].
    intros f Hf.
    assert (Hf' : (0 <= f < len (set (frameTimes arrays) frame
                     (num (frame * HOP_SIZE + FFT_SIZE / 2) / sampleRate)))%Z)
      by (unfold len in *; now rewrite set_length).
    destruct (Hget f Hf') as [H1 H2].
    destruct (in_dec Z.eq_dec f frames) as [Hin|Hnin].
    + split; [intros _; now apply H1|]. intros Hn. exfalso. apply Hn. now right.
    + rewrite (H2 Hnin). destruct (Z.eq_dec frame f) as [->|Hne].
      * split; [intros _; now apply get_set_same|].
        intros Hn. exfalso. apply Hn. now left.
      * rewrite get_set_other by assumption.
        split; [intros [Heq|Hin]; [congruence|contradiction]|reflexivity].
Qed.

(** X28.  [analyzeDrums] computes exactly one spectrum per frame,
    floor((length - 2048) / 512) of them (none when that is not positive),
    and every kick, snare or hi-hat time it reports is the centre time
    (512 f + 1024) / sampleRate of a frame f past the 10-frame warm-up. *)
Theorem analyzeDrums_frame_times (audioData : list Q) (sampleRate : Q)
  (beatTimes : list Q) :
  spectraComputed (analyzeDrums audioData sampleRate beatTimes)
  = Z.to_nat ((len audioData - FFT_SIZE) / HOP_SIZE) /\
  exists pattern,
    outcome (analyzeDrums audioData sampleRate beatTimes) = Ok pattern /\
    forall t,
      In t (kickTimes pattern ++ snareTimes pattern ++ hihatTimes pattern) ->
      exists f,
        (10 <= f < (len audioData - FFT_SIZE) / HOP_SIZE - 1)%Z /\
        t = num (f * HOP_SIZE + FFT_SIZE / 2) / sampleRate.
Proof.
  unfold analyzeDrums.
  set (numFrames := ((len audioData - FFT_SIZE) / HOP_SIZE)%Z).
  destruct (numFrames <=? 0)%Z eqn:E.
  - apply Z.leb_le in E. split; [simpl; lia|].
    eexists. split; [reflexivity|]. intros t [].
  - apply Z.leb_gt in E.
    destruct (frameLoop_returns audioData sampleRate
                (createHammingWindow FFT_SIZE) (range 0 numFrames)
                {| kickEnergy := zeros numFrames; snareEnergy := zeros numFrames;
                   hihatEnergy := zeros numFrames; frameTimes := zeros numFrames |}
                0%nat (range_frames audioData)) as [a Ha].
    rewrite Ha. simpl. split; [rewrite range_length; lia|].
    eexists. split; [reflexivity|]. simpl.
    destruct (frameLoop_times _ _ _ _ _ _ _ _ Ha) as [(Lk & Ls & Lh & Lt) Hget].
    simpl in Lk, Ls, Lh, Lt, Hget. rewrite zeros_length in Lk, Ls, Lh, Lt.
    assert (Hcentre : forall energy thr gap t,
               length energy = Z.to_nat numFrames ->
               In t (detectOnsets energy (frameTimes a) thr gap) ->
               exists f, (10 <= f < numFrames - 1)%Z /\
                         t = num (f * HOP_SIZE + FFT_SIZE / 2) / sampleRate).
    { intros energy thr gap t Hlen Ht.
      apply detectOnsets_origin in Ht. destruct Ht as (i & Hi & -> & _).
      assert (Hi' : (10 <= i < numFrames - 1)%Z) by (unfold len in Hi; lia).
      exists i. split; [exact Hi'|].
      apply Hget; [unfold len; rewrite zeros_length; lia|apply in_range; lia]. }
    intros t Ht. apply in_app_or in Ht. destruct Ht as [Ht|Ht].
    + now apply (Hcentre _ _ _ _ Lk Ht).
    + apply in_app_or in Ht. destruct Ht as [Ht|Ht].
      * now apply (Hcentre _ _ _ _ Ls Ht).
      * now apply (Hcentre _ _ _ _ Lh Ht).
Qed.

End OnsetFacts.

(** ** Section timeline *)

Section TimelineFacts.
Import JS EnergyAnalyzer SectionAnalyzer SectionTimeline.

Lemma Path_widths (total : Q) a l e :
  ~ total == 0 -> Path a l e ->
  fold_right Qplus 0 (map (fun s => widthPercent s total) l)
  == (e - a) / total * 100.
Proof.
  intros Ht H. induction H as [a|s l e H IH]; simpl.
  - field. exact Ht.
  - rewrite IH. unfold widthPercent. field. exact Ht.
Qed.

(** *** The boundaries are in ascending order *)

(** The snapped time is the time itself or one of the bars. *)
Lemma snapLoop_In (t : Q) (bars : list Q) : forall nearestBar minDiff,
  snapLoop t bars nearestBar minDiff = nearestBar \/
  In (snapLoop t bars nearestBar minDiff) bars.
Proof.
  induction bars as [|b bars IH]; intros nb md; cbn [snapLoop]; [now left|].
  cbv zeta.
  destruct (ltb (Qabs (t - b)) md); destruct (ltb (t + 2) b).
  - right. now left.
  - destruct (IH b (Qabs (t - b))) as [-> | H]; [right; now left|right; now right].
  - now left.
  - destruct (IH nb md) as [-> | H]; [now left|right; now right].
Qed.

Lemma snapToNearestBar_below (t : Q) (barTimes : list Q) (d : Q) :
  t <= d -> Forall (fun b => b <= d) barTimes ->
  snapToNearestBar t barTimes <= d.
Proof.
  intros Ht Hb. unfold snapToNearestBar.
  destruct barTimes as [|bar0 rest] eqn:E; [exact Ht|].
  rewrite Forall_forall in Hb.
  destruct (snapLoop_In t (bar0 :: rest) bar0 (Qabs (t - bar0))) as [-> | H].
  - apply Hb. now left.
  - now apply Hb.
Qed.

(** Every energy change lies more than a second before the end of the
    envelope. *)
Lemma detectEnergyChanges_before_end (energyCurve : list Q) (threshold : Q) :
  Forall (fun c => time c + 1 < num (len energyCurve) / 10)
         (detectEnergyChanges energyCurve threshold).
Proof.
  unfold detectEnergyChanges, forRange, OUTPUT_SAMPLE_RATE.
  apply fold_left_invariant_In; [constructor|].
  intros changes i Hi Hall. apply in_range in Hi.
  destruct (fold_left _ (range 0 10) (0, 0)) as [beforeSum afterSum].
  destruct (leb threshold _); [|exact Hall].
  assert (Hnew : num i / num 10 + 1 < num (len energyCurve) / 10).
  { assert (H2 : inject_Z (i + 10) < inject_Z (len energyCurve))
      by (rewrite <- Zlt_Qlt; lia).
    rewrite inject_Z_plus in H2. unfold num.
    change (inject_Z 10) with 10%Q in *.
    apply Qlt_shift_div_l; [reflexivity|].
    assert (E : (inject_Z i / 10 + 1) * 10 == inject_Z i + 10) by field.
    rewrite E. exact H2. }
  assert (Hsnoc : Forall (fun c => time c + 1 < num (len energyCurve) / 10)
                         (changes ++ [{| time := num i / num 10;
                                         delta := afterSum / num 10
                                                  - beforeSum / num 10 |}])).
  { apply Forall_app. split; [exact Hall|].
    constructor; [exact Hnew|constructor]. }
  destruct (lastOpt changes); [|exact Hsnoc].
  destruct (leb 1 _); [exact Hsnoc|exact Hall].
Qed.

Lemma Spaced_weaken (g g' : Q) (l : list Q) :
  g' <= g -> Spaced g l -> Spaced g' l.
Proof.
  intro Hg. induction l as [|x t IH]; simpl; [auto|].
  intros [Hhd Htl]. split; [|auto].
  destruct t; [exact I|]. destruct Hhd. split; [assumption|lra].
Qed.

(** Moving the last timestamp later keeps the spacing. *)
Lemma Spaced_replace_last (g : Q) (init : list Q) (y d : Q) :
  Spaced g (init ++ [y]) -> y <= d -> Spaced g (init ++ [d]).
Proof.
  intros H Hy. induction init as [|h t IH]; simpl in *; [auto|].
  destruct H as [Hhd Htl]. split; [|auto].
  destruct t as [|h' t']; simpl in *; [|exact Hhd].
  destruct Hhd. split; lra.
Qed.

Lemma Spaced_Sorted (g : Q) (l : list Q) : Spaced g l -> Sorted Qle l.
Proof.
  induction l as [|x t IH]; simpl; [constructor|].
  intros [Hhd Htl]. constructor; [auto|].
  destruct t; constructor. destruct Hhd. lra.
Qed.

Lemma snoc_last (l : list Q) : l <> [] -> l = removelast l ++ [last l 0].
Proof. intro H. now apply app_removelast_last. Qed.

(** The boundaries accepted by the energy-change loop are at least
    [MIN_SECTION_DURATION] apart. *)
Lemma changeBoundaries_spaced changes barTimes :
  Spaced 4 (changeBoundaries changes barTimes).
Proof.
  unfold changeBoundaries.
  enough (H : forall bs : list Q,
             bs <> [] /\ Spaced 4 bs ->
             let r := fold_left
                        (fun boundaries change =>
                           let snappedTime :=
                             snapToNearestBar (time change) barTimes in
                           if leb MIN_SECTION_DURATION
                                  (snappedTime - lastBoundary boundaries)
                           then boundaries ++ [snappedTime]
                           else boundaries)
                        changes bs in
             r <> [] /\ Spaced 4 r).
  { apply (H [0]). split; [discriminate|simpl; auto]. }
  induction changes as [|c cs IH]; intros bs Hbs; [exact Hbs|].
  simpl fold_left. apply IH. cbv zeta.
  destruct (leb _ _) eqn:E; [|exact Hbs].
  destruct Hbs as [Hne Hsp]. split; [now destruct bs|].
  apply leb_le in E. unfold MIN_SECTION_DURATION, lastBoundary in E.
  rewrite (snoc_last bs Hne) in Hsp |- *.
  apply Spaced_snoc; [exact Hsp|lra|lra].
Qed.

Lemma changeBoundaries_below changes barTimes (d : Q) :
  0 <= d ->
  Forall (fun c => snapToNearestBar (time c) barTimes <= d) changes ->
  Forall (fun b => b <= d) (changeBoundaries changes barTimes).
Proof.
  intros Hd Hc. unfold changeBoundaries.
  apply fold_left_invariant_In; [repeat constructor; exact Hd|].
  intros bs c Hin H. cbv zeta.
  destruct (leb _ _); [|exact H].
  rewrite Forall_forall in Hc.
  apply Forall_app. split; [exact H|]. constructor; [now apply Hc|constructor].
Qed.

(** After the closing step the boundaries are strictly increasing. *)
Lemma closeBoundaries_increasing (t : list Q) (d : Q) :
  0 < d -> Spaced 4 (0 :: t) -> Forall (fun b => b <= d) (0 :: t) ->
  Spaced 0 (closeBoundaries (0 :: t) d).
Proof.
  intros Hd Hsp Hle. unfold closeBoundaries, lastBoundary.
  assert (Hne : 0 :: t <> []) by discriminate.
  assert (Hlast : last (0 :: t) 0 <= d).
  { rewrite Forall_forall in Hle. apply Hle.
    rewrite (snoc_last (0 :: t) Hne) at 2. apply in_or_app. right. now left. }
  destruct (leb MIN_SECTION_DURATION (d - last (0 :: t) 0)) eqn:E.
  - apply leb_le in E. unfold MIN_SECTION_DURATION in E.
    apply (Spaced_weaken 4); [discriminate|].
    rewrite (snoc_last (0 :: t) Hne) in Hsp |- *.
    apply Spaced_snoc; [exact Hsp|lra|lra].
  - destruct (1 <? _)%Z eqn:E1.
    + apply (Spaced_weaken 4); [discriminate|].
      rewrite (snoc_last (0 :: t) Hne) in Hsp.
      apply (Spaced_replace_last 4 _ (last (0 :: t) 0)); assumption.
    + apply Z.ltb_ge in E1. rewrite len_cons in E1.
      destruct t as [|b t']; [|rewrite len_cons in E1; unfold len in E1; lia].
      simpl. split; [split; lra|auto].
Qed.

Lemma barBoundaries_sorted (bs barTimes : list Q) :
  Sorted Qle bs -> Sorted Qle (barBoundaries bs barTimes).
Proof.
  intro H. unfold barBoundaries.
  destruct (_ && _); [apply sortNumbers_Sorted|exact H].
Qed.

Lemma Sorted_get (l : list Q) :
  Sorted Qle l ->
  forall i, (0 <= i)%Z -> (i + 1 < len l)%Z -> get l i <= get l (i + 1).
Proof.
  induction 1 as [|a l Hs IH Hhd]; intros i Hi Hlen.
  - unfold len in Hlen. simpl in Hlen. lia.
  - rewrite len_cons in Hlen.
    destruct (Z.eq_dec i 0) as [->|Hne].
    + destruct l as [|b t]; [unfold len in Hlen; simpl in Hlen; lia|].
      inversion Hhd; subst. assumption.
    + replace (i + 1)%Z with (i - 1 + 1 + 1)%Z by lia.
      replace (get (a :: l) i) with (get (a :: l) (i - 1 + 1))
        by (f_equal; lia).
      rewrite !get_cons_succ by lia. apply IH; lia.
Qed.

(** For an envelope of a track of duration [d] and bars that are not after
    [d], the boundaries of [analyzeSections] are in ascending order. *)
Lemma boundaries_sorted (energyCurve barTimes : list Q) (d : Q) :
  0 < d ->
  (len energyCurve <= Qceiling (d * 10))%Z ->
  Forall (fun b => b <= d) barTimes ->
  Sorted Qle
    (barBoundaries
       (closeBoundaries
          (changeBoundaries (detectEnergyChanges energyCurve 0.15) barTimes) d)
       barTimes).
Proof.
  intros Hd Hlen Hbars.
  apply barBoundaries_sorted, (Spaced_Sorted 0).
  pose proof (changeBoundaries_spaced (detectEnergyChanges energyCurve 0.15)
                barTimes) as Hsp.
  assert (Hle : Forall (fun b => b <= d)
                       (changeBoundaries (detectEnergyChanges energyCurve 0.15)
                          barTimes)).
  { apply changeBoundaries_below; [lra|].
    eapply Forall_impl;
      [|apply (detectEnergyChanges_before_end energyCurve 0.15)].
    intros c Hc. cbv beta in Hc. apply snapToNearestBar_below; [|exact Hbars].
    pose proof (Qceiling_lt (d * 10)) as Hceil.
    assert (Hn : num (len energyCurve) <= inject_Z (Qceiling (d * 10)))
      by (unfold num; rewrite <- Zle_Qle; exact Hlen).
    unfold Z.sub in Hceil. rewrite inject_Z_plus in Hceil.
    change (inject_Z (Z.opp 1)) with (-1 # 1) in Hceil.
    revert Hc Hceil Hn.
    generalize (num (len energyCurve)) (inject_Z (Qceiling (d * 10))) (time c).
    intros n cz t Hc Hceil Hn.
    unfold Qdiv in Hc. change (/ 10) with (1 # 10) in Hc. lra. }
  destruct (changeBoundaries_head (detectEnergyChanges energyCurve 0.15)
              barTimes) as [t Ht].
  rewrite Ht in *. now apply closeBoundaries_increasing.
Qed.

(** *** Sections in ascending order *)

(** The merge loop keeps every section from ending before it starts. *)
Lemma mergeLoop_ordered rest : forall current merged e,
  Path (endTime current) rest e ->
  Forall (fun s => startTime s <= endTime s) rest ->
  startTime current <= endTime current ->
  Forall (fun s => startTime s <= endTime s) merged ->
  Forall (fun s => startTime s <= endTime s) (mergeLoop rest current merged).
Proof.
  induction rest as [|next rest' IH]; intros current merged e Hp Hr Hc Hm; simpl.
  - apply Forall_app. split; [exact Hm|]. constructor; [exact Hc|constructor].
  - inversion Hp as [|s l e' Hp' Hs]; subst.
    inversion Hr as [|? ? Hn Hr']; subst.
    destruct (SectionType_eqb (type next) (type current)).
    + apply (IH _ _ e); simpl; [exact Hp'|exact Hr'| |exact Hm].
      rewrite Hs in Hn. lra.
    + apply (IH _ _ e); [exact Hp'|exact Hr'|exact Hn|].
      apply Forall_app. split; [exact Hm|]. constructor; [exact Hc|constructor].
Qed.

Lemma mergeSections_ordered a sections e :
  Path a sections e ->
  Forall (fun s => startTime s <= endTime s) sections ->
  Forall (fun s => startTime s <= endTime s) (mergeSections sections).
Proof.
  intros Hp H. destruct sections as [|s [|s' t]]; try exact H.
  unfold mergeSections. inversion Hp; subst. inversion H; subst.
  eapply mergeLoop_ordered; eauto.
Qed.

(** Sections laid end to end, none of which ends before it starts, lie
    between the start of the first and the end of the last. *)
Lemma Path_within a l e :
  Path a l e -> Forall (fun s => startTime s <= endTime s) l ->
  a <= e /\ Forall (fun s => a <= startTime s /\ endTime s <= e) l.
Proof.
  induction 1 as [a|s l e H IH]; intro Hok.
  - split; [apply Qle_refl|constructor].
  - inversion Hok as [|? ? Hs Hl]; subst. destruct (IH Hl) as [He Hall].
    split; [lra|].
    constructor; [split; [apply Qle_refl|exact He]|].
    eapply Forall_impl; [|exact Hall]. cbv beta. intros x [H1 H2].
    split; [lra|exact H2].
Qed.

Lemma analyzeSections_ordered (energyCurve barTimes : list Q) (d : Q) :
  0 < d ->
  (len energyCurve <= Qceiling (d * 10))%Z ->
  Forall (fun b => b <= d) barTimes ->
  Forall (fun s => startTime s <= endTime s)
         (analyzeSections energyCurve barTimes d).
Proof.
  intros Hd Hlen Hbars.
  pose proof (boundaries_sorted energyCurve barTimes d Hd Hlen Hbars) as Hsorted.
  unfold analyzeSections.
  destruct (len energyCurve =? 0)%Z.
  - constructor; [simpl; lra|constructor].
  - cbv zeta.
    set (bs := barBoundaries _ _) in *.
    destruct (boundaries_shape (detectEnergyChanges energyCurve 0.15)
                barTimes d Hd) as [mid Hmid].
    fold bs in Hmid.
    assert (Hl : (len bs - 1 = 0 + Z.of_nat (S (length mid)))%Z)
      by (rewrite Hmid, len_shape; lia).
    assert (Hp := sections_path energyCurve bs d (S (length mid)) 0).
    rewrite <- Hl in Hp.
    eapply mergeSections_ordered; [exact Hp|].
    apply Forall_map, Forall_forall. intros i Hi. apply in_range in Hi.
    simpl. apply Sorted_get; [exact Hsorted|lia|lia].
Qed.

(** X29.  The section bars tile the timeline.  For a positive duration
    [d], an envelope of at most ceil(10 d) values (what [analyzeEnergy]
    returns for a track of duration [d]) and bar times that are not after
    [d], the bars of the sections returned by [analyzeSections], drawn
    against [d], lie inside the timeline, each with a width that is not
    negative; the first bar starts at 0 %, each bar starts where the bar
    before it ends (left + width), and the widths add up to 100 %.  The
    percentages are those of exact arithmetic. *)
Theorem timeline_tiles (energyCurve barTimes : list Q) (d : Q) :
  0 < d ->
  (len energyCurve <= Qceiling (d * 10))%Z ->
  Forall (fun b => b <= d) barTimes ->
  (exists first rest,
      analyzeSections energyCurve barTimes d = first :: rest /\
      leftPercent first d == 0) /\
  (forall i a b,
      nth_error (analyzeSections energyCurve barTimes d) i = Some a ->
      nth_error (analyzeSections energyCurve barTimes d) (S i) = Some b ->
      leftPercent b d == leftPercent a d + widthPercent a d) /\
  Forall (fun s => 0 <= leftPercent s d /\ 0 <= widthPercent s d /\
                   leftPercent s d + widthPercent s d <= 100)
         (analyzeSections energyCurve barTimes d) /\
  fold_right Qplus 0
    (map (fun s => widthPercent s d) (analyzeSections energyCurve barTimes d))
  == 100.
Proof.
  intros Hd Hlen Hbars.
  pose proof (analyzeSections_path energyCurve barTimes d Hd) as Hp.
  pose proof (analyzeSections_ordered energyCurve barTimes d Hd Hlen Hbars)
    as Hok.
  assert (Hd0 : ~ d == 0) by lra.
  split; [|split; [|split]].
  - destruct (analyzeSections energyCurve barTimes d) as [|s t] eqn:E.
    + inversion Hp; subst. lra.
    + exists s, t. split; [reflexivity|]. inversion Hp as [|? ? ? ? Hs]; subst.
      unfold leftPercent. rewrite Hs. field. exact Hd0.
  - intros i a b Ha Hb. unfold leftPercent, widthPercent.
    rewrite <- (Path_adjacent _ _ _ _ _ _ Hp Ha Hb). field. exact Hd0.
  - destruct (Path_within _ _ _ Hp Hok) as [_ Hin].
    rewrite Forall_forall in Hin, Hok. apply Forall_forall. intros s Hs.
    destruct (Hin s Hs) as [H0 H1]. specialize (Hok s Hs). cbv beta in Hok.
    unfold leftPercent, widthPercent.
    assert (Hinv : 0 < / d) by now apply Qinv_lt_0_compat.
    unfold Qdiv.
    assert (E : startTime s * / d * 100
                + (endTime s - startTime s) * / d * 100
                == endTime s * / d * 100) by ring.
    split; [|split].
    + apply Qmult_le_0_compat; [|discriminate].
      apply Qmult_le_0_compat; lra.
    + apply Qmult_le_0_compat; [|discriminate].
      apply Qmult_le_0_compat; lra.
    + rewrite E.
      assert (E1 : endTime s * / d <= 1).
      { apply Qle_shift_div_r; [exact Hd|]. lra. }
      lra.
  - rewrite (Path_widths d 0 _ d Hd0 Hp). field. exact Hd0.
Qed.

Lemma timeline_tiles_witness :
  Forall (fun s => 0 <= leftPercent s 30 /\ 0 <= widthPercent s 30 /\
                   leftPercent s 30 + widthPercent s 30 <= 100)
         (analyzeSections (repeat 0.1 100 ++ repeat 0.9 100 ++ repeat 0.1 100)
                          [0; 2; 4; 6; 8; 10; 12; 14; 16; 18; 20; 22; 24; 26; 28; 30]
                          30) /\
  fold_right Qplus 0
    (map (fun s => widthPercent s 30)
         (analyzeSections (repeat 0.1 100 ++ repeat 0.9 100 ++ repeat 0.1 100)
                          [0; 2; 4; 6; 8; 10; 12; 14; 16; 18; 20; 22; 24; 26; 28; 30]
                          30))
  == 100.
Proof.
  apply (timeline_tiles (repeat 0.1 100 ++ repeat 0.9 100 ++ repeat 0.1 100)
           [0; 2; 4; 6; 8; 10; 12; 14; 16; 18; 20; 22; 24; 26; 28; 30] 30).
  - reflexivity.
  - vm_compute. discriminate.
  - repeat constructor; discriminate.
Defined.

End TimelineFacts.

(** ** Beat corrections *)

Section CorrectionFacts.
Import JS BeatCorrections.

Lemma insertByTime_In (x y : BeatCorrection) (l : list BeatCorrection) :
  In x (insertByTime y l) <-> x = y \/ In x l.
Proof.
  induction l as [|h t IH]; simpl.
  - intuition.
  - destruct (leb (time y) (time h)); simpl; [intuition|]. rewrite IH. intuition.
Qed.

Lemma sortByTime_In (x : BeatCorrection) (l : list BeatCorrection) :
  In x (sortByTime l) <-> In x l.
Proof.
  induction l as [|h t IH]; simpl; [reflexivity|].
  rewrite insertByTime_In, IH. intuition.
Qed.

Lemma insertByTime_Sorted (x : BeatCorrection) (l : list BeatCorrection) :
  SortedByTime l -> SortedByTime (insertByTime x l).
Proof.
  unfold SortedByTime. induction 1 as [|h t Ht IH Hhd]; simpl.
  - repeat constructor.
  - destruct (leb (time x) (time h)) eqn:E.
    + apply leb_le in E. repeat constructor; assumption.
    + apply leb_gt in E. constructor; [exact IH|].
      destruct t as [|h' t']; simpl.
      * constructor. lra.
      * inversion Hhd; subst.
        destruct (leb (time x) (time h')); constructor; [lra|assumption].
Qed.

Lemma sortByTime_Sorted (l : list BeatCorrection) : SortedByTime (sortByTime l).
Proof.
  induction l as [|h t IH]; simpl; [constructor|].
  now apply insertByTime_Sorted.
Qed.

Lemma Apart_sym (a b : BeatCorrection) : Apart a b -> Apart b a.
Proof. unfold Apart. now rewrite Qabs_Qminus. Qed.

Lemma insertByTime_Forall (P : BeatCorrection -> Prop) x l :
  P x -> Forall P l -> Forall P (insertByTime x l).
Proof.
  intros Hx H. induction H as [|h t Hh Ht IH]; simpl; [auto|].
  destruct (leb (time x) (time h)); auto.
Qed.

Lemma insertByTime_Separated (x : BeatCorrection) (l : list BeatCorrection) :
  Forall (Apart x) l -> Separated l -> Separated (insertByTime x l).
Proof.
  unfold Separated. intros Hx H. induction H as [|h t Hh Ht IH]; simpl.
  - repeat constructor.
  - inversion Hx as [|? ? Hxh Hxt]; subst.
    destruct (leb (time x) (time h)).
    + constructor; [constructor; assumption|]. constructor; assumption.
    + constructor; [|auto].
      apply insertByTime_Forall; [now apply Apart_sym|assumption].
Qed.

Lemma sortByTime_Forall (P : BeatCorrection -> Prop) l :
  Forall P l -> Forall P (sortByTime l).
Proof. induction 1; simpl; auto using insertByTime_Forall. Qed.

Lemma sortByTime_Separated (l : list BeatCorrection) :
  Separated l -> Separated (sortByTime l).
Proof.
  unfold Separated. induction 1 as [|h t Hh Ht IH]; simpl; [constructor|].
  apply insertByTime_Separated; [|exact IH]. now apply sortByTime_Forall.
Qed.

Lemma Separated_snoc (l : list BeatCorrection) (x : BeatCorrection) :
  Separated l -> Forall (fun c => Apart c x) l -> Separated (l ++ [x]).
Proof.
  unfold Separated. intros H Hx. induction H as [|h t Hh Ht IH]; simpl.
  - repeat constructor.
  - inversion Hx; subst. constructor; [|auto].
    apply Forall_app. split; [assumption|]. constructor; [assumption|constructor].
Qed.

Lemma find_exists {A : Type} (f : A -> bool) (l : list A) (x : A) :
  In x l -> f x = true -> exists c, find f l = Some c /\ In c l /\ f c = true.
Proof.
  induction l as [|h t IH]; intros Hin Hf; [contradiction|]. simpl.
  destruct (f h) eqn:E.
  - exists h. auto.
  - destruct Hin as [->|Hin]; [congruence|].
    destruct (IH Hin Hf) as (c & Hc & Hi & Ht). exists c. auto.
Qed.

(** X30.  [addCorrection] keeps the corrections in ascending order of time
    and keeps any two of them at least 50 ms apart; and after it, whether
    the new time was added or rejected as a duplicate, [findCorrectionNear]
    finds a correction within the tolerance of that time, for any tolerance
    of 50 ms or more (such as the default 0.1 s). *)
Theorem addCorrection_spec (newId : String.string) (t tolerance : Q)
  (prev : list BeatCorrection) :
  0.05 <= tolerance ->
  (SortedByTime prev -> SortedByTime (addCorrection newId t prev)) /\
  (Separated prev -> Separated (addCorrection newId t prev)) /\
  (exists c,
      findCorrectionNear t tolerance (addCorrection newId t prev) = Some c /\
      In c (addCorrection newId t prev) /\
      Qabs (time c - t) <= tolerance).
Proof.
  intro Htol. unfold addCorrection. cbv zeta.
  destruct (existsb _ prev) eqn:E.
  - split; [auto|]. split; [auto|].
    apply existsb_exists in E. destruct E as (c & Hc & Hclose).
    apply ltb_lt in Hclose.
    destruct (find_exists
                (fun c => leb (Qabs (time c - t)) tolerance) prev c Hc)
      as (c' & Hf & Hin & Hc'); [apply leb_le; lra|].
    exists c'. apply leb_le in Hc'. auto.
  - split; [intros _; apply sortByTime_Sorted|]. split.
    + intro Hsep. apply sortByTime_Separated, Separated_snoc; [exact Hsep|].
      apply Forall_forall. intros c Hc.
      apply (existsb_false _ _ E) in Hc. apply ltb_ge in Hc. exact Hc.
    + set (new := {| time := t; id := newId |}).
      destruct (find_exists
                  (fun c => leb (Qabs (time c - t)) tolerance)
                  (sortByTime (prev ++ [new])) new)
        as (c' & Hf & Hin & Hc').
      * apply sortByTime_In, in_or_app. right. now left.
      * apply leb_le. cbv beta. change (time new) with t.
        setoid_replace (t - t) with 0 by ring.
        change (Qabs 0) with 0. lra.
      * exists c'. apply leb_le in Hc'. auto.
Qed.

End CorrectionFacts.

Section CorrectionWitness.
Import String.

Lemma addCorrection_spec_witness :
  SortedByTime
    (BeatCorrections.addCorrection "c3"%string 1.5
       [{| BeatCorrections.time := 1; BeatCorrections.id := "c1"%string |};
        {| BeatCorrections.time := 2; BeatCorrections.id := "c2"%string |}]) /\
  Separated
    (BeatCorrections.addCorrection "c3"%string 1.5
       [{| BeatCorrections.time := 1; BeatCorrections.id := "c1"%string |};
        {| BeatCorrections.time := 2; BeatCorrections.id := "c2"%string |}]).
Proof.
  destruct (addCorrection_spec "c3"%string 1.5 0.1
              [{| BeatCorrections.time := 1; BeatCorrections.id := "c1"%string |};
               {| BeatCorrections.time := 2; BeatCorrections.id := "c2"%string |}])
    as (H1 & H2 & _); [discriminate|].
  split.
  - apply H1. repeat constructor. discriminate.
  - apply H2. repeat constructor. discriminate.
Defined.

End CorrectionWitness.

Lemma barTimes_are_downbeats_witness :
  In 2 (BeatWorker.downbeatTimes
          (@BeatWorker.detectDownbeats floorMath [0; 0.5; 1; 1.5; 2; 2.5]
             (@BeatWorker.calculateBeatStrengths floorMath [0.5; 1; 0.25; 0]
                [0; 0.5; 1; 1.5; 2; 2.5] 2))).
Proof.
  apply (@barTimes_are_downbeats floorMath [0.5; 1; 0.25; 0]
           [0; 0.5; 1; 1.5; 2; 2.5] 2).
  simpl. tauto.
Defined.

Lemma silent_downbeats_witness :
  Silent (@BeatWorker.calculateBeatStrengths floorMath (repeat 0 8)
            [0; 0.5; 1; 1.5; 2; 2.5] 2) /\
  (In 4%Z (BeatWorker.downbeatIndices
             (@BeatWorker.detectDownbeats floorMath [0; 0.5; 1; 1.5; 2; 2.5]
                (@BeatWorker.calculateBeatStrengths floorMath (repeat 0 8)
                   [0; 0.5; 1; 1.5; 2; 2.5] 2))) <->
   (0 <= 4 < JS.len [0; 0.5; 1; 1.5; 2; 2.5]%Q)%Z /\ (4 mod 4 = 0)%Z).
Proof.
  destruct (@silent_downbeats floorMath floorMath_laws (repeat 0 8)
              [0; 0.5; 1; 1.5; 2; 2.5] 2) as (H1 & _ & H3).
  - repeat constructor.
  - repeat constructor.
  - split; [exact H1|apply H3].
Defined.
